(** * fixreal: fixed point <-> real conversions, verified against fixreal.py

    The development embeds [fixreal.py] (version 0.8) function by function
    and proves the properties its specification states about it.

    Modelling conventions.
    - Python integers are unbounded: they are [Z], with [Z.land], [Z.shiftl]
      and [Z.shiftr] for [&], [<<] and [>>].
    - Python floats are modelled by exact rationals [Q].  What the decoder
      computes before it divides by the scaling, for a raw value of at most
      32 bits, is a dyadic rational with at most 32 significant bits, and
      binary64 arithmetic is exact on it.  The conversion of an integer too
      large for a float raises [OverflowError], as in [get_conv].  Rounding (of
      the division by a scaling, of the encoder on inputs off the grid of the
      format), infinities and NaN are outside the model.
    - Exceptions are values of [exn] carried by the [result] monad.
    - Strings are strings of 8-bit characters, and the letter case [re.I]
      ignores is that of ASCII; byte buffers are lists of bytes.
    - The conversion structure is a dictionary with a fixed set of keys in the
      source; it is the record [conv_t] here.
    - A bit count is a non-negative integer: the embedding is faithful for
      [0 <= bin_point], and for the sign-dependent fields of a signed format
      for [bin_point < bits].  Outside, Python computes [2 ** n] with a
      negative [n], a float, where [Z] has 0. *)

From Stdlib Require Import ZArith QArith Qround Qabs List String Ascii Bool Lia Lqa.
From Stdlib Require Import Strings.Byte DecimalString.
Import ListNotations.

Local Open Scope Z_scope.

(** ** Python primitives *)

Module Py.

(** Why a [ConversionError] was raised: the three messages of the source. *)
Inductive conv_error : Type :=
| BitsNotSupported (bits : Z)          (* "numer of bits not supported: " + str(bits) *)
| CannotInterpretName (name : string)  (* "Cannot interpret name: " + name *)
| CannotConvertUnsigned (real : Q).    (* "cannot convert " + str(real) + " to unsigned representation" *)

Inductive exn : Type :=
| ConversionError (why : conv_error)
| StructError            (* struct.error *)
| ZeroDivisionError
| IndexError
| OverflowError.

Inductive result (A : Type) : Type :=
| Ok (a : A)
| Raise (e : exn).

Arguments Ok {A} a.
Arguments Raise {A} e.

Definition bind {A B : Type} (r : result A) (k : A -> result B) : result B :=
  match r with
  | Ok a => k a
  | Raise e => Raise e
  end.

(** A list comprehension whose body may raise: left to right, the first
    exception wins. *)
Fixpoint mapM {A B : Type} (f : A -> result B) (l : list A) : result (list B) :=
  match l with
  | [] => Ok []
  | a :: l' => bind (f a) (fun b => bind (mapM f l') (fun bs => Ok (b :: bs)))
  end.

(** [range(lo, hi)] and [range(hi)]. *)
Definition range2 (lo hi : Z) : list Z :=
  map (fun i => lo + Z.of_nat i) (seq 0 (Z.to_nat (hi - lo))).

Definition range (hi : Z) : list Z := range2 0 hi.

(** [sum(l)]: starts from 0 and adds from the left. *)
Definition sum (l : list Z) : Z := fold_left Z.add l 0.

(** [x < y] on floats. *)
Definition Qltb (x y : Q) : bool := negb (Qle_bool y x).

(** [divmod(x, 1)] for [0 <= x]: the integer part and the fractional part. *)
Definition divmod1 (x : Q) : Z * Q := (Qfloor x, (x - inject_Z (Qfloor x))%Q).

(** [a // b] on floats. *)
Definition floordiv (a b : Q) : Z := Qfloor (a / b).

(** [a // b] on integers: the floor, as [Z.div]. *)
Definition ifloordiv (a b : Z) : result Z :=
  if b =? 0 then Raise ZeroDivisionError else Ok (a / b).

(** An integer operand of a float operator is converted to a float: one that
    rounds to [2^1024] or beyond is "too large to convert to float". *)
Definition float_of_int (n : Z) : result Q :=
  if Z.abs n <? 2 ^ 1024 - 2 ^ 970 then Ok (inject_Z n)
  else Raise OverflowError.

(** [a / b] on floats. *)
Definition truediv (a b : Q) : result Q :=
  if Qeq_bool b 0 then Raise ZeroDivisionError else Ok (a / b)%Q.

(** *** Strings *)

Definition is_digit (c : ascii) : bool :=
  let n := N_of_ascii c in (48 <=? n)%N && (n <=? 57)%N.

Definition lower (c : ascii) : ascii :=
  let n := N_of_ascii c in
  if (65 <=? n)%N && (n <=? 90)%N then ascii_of_N (n + 32) else c.

(** Equality of characters under [re.I]. *)
Definition eqb_nocase (c d : ascii) : bool := Ascii.eqb (lower c) (lower d).

(** The longest prefix of digits and what follows it: a greedy [\d*]. *)
Fixpoint span_digits (s : string) : string * string :=
  match s with
  | EmptyString => (EmptyString, EmptyString)
  | String c s' =>
      if is_digit c then let '(ds, rest) := span_digits s' in (String c ds, rest)
      else (EmptyString, s)
  end.

(** [int(s)] for a string of decimal digits. *)
Definition int_of_digits (s : string) : Z :=
  fold_left (fun acc c => 10 * acc + (Z.of_N (N_of_ascii c) - 48))
            (list_ascii_of_string s) 0.

(** [str(z)] for an integer: its decimal digits, after a minus sign if it is
    negative. *)
Definition str (z : Z) : string := NilZero.string_of_int (Z.to_int z).

(** *** struct *)

(** The format characters the module uses, all unsigned. *)
Inductive struct_code : Type := code_B | code_H | code_I.

(** The first character of a struct format. *)
Inductive endianness : Type :=
| Native       (* "@" *)
| NativeStd    (* "=" *)
| Little       (* "<" *)
| Big          (* ">" *)
| Network.     (* "!" *)

(** [struct.calcsize] of one item: unsigned char, short and int are 1, 2 and
    4 bytes, in standard and in native mode. *)
Definition code_size (c : struct_code) : nat :=
  match c with
  | code_B => 1
  | code_H => 2
  | code_I => 4
  end.

(** The unsigned integer whose little-endian bytes are [bs]. *)
Fixpoint le_uint (bs : list byte) : Z :=
  match bs with
  | [] => 0
  | b :: bs' => Z.of_N (Byte.to_N b) + 256 * le_uint bs'
  end.

(** [count] consecutive items of [k] bytes each. *)
Fixpoint items (count k : nat) (buf : list byte) : list (list byte) :=
  match count with
  | O => []
  | S count' => firstn k buf :: items count' k (skipn k buf)
  end.

Section Platform.

(** Byte order of the machine the program runs on. *)
Variable native_big_endian : bool.

Definition big_endian (e : endianness) : bool :=
  match e with
  | Native | NativeStd => native_big_endian
  | Little => false
  | Big | Network => true
  end.

Definition uint_of_bytes (e : endianness) (bs : list byte) : Z :=
  if big_endian e then le_uint (rev bs) else le_uint bs.

(** [struct.unpack(e + str(count) + code, buf)]: the buffer must have exactly
    the size the format calls for. *)
Definition unpack (e : endianness) (count : nat) (c : struct_code)
    (buf : list byte) : result (list Z) :=
  if Nat.eqb (List.length buf) (count * code_size c)%nat
  then Ok (map (uint_of_bytes e) (items count (code_size c) buf))
  else Raise StructError.

(** The same with [count] an integer, written [str(count)] in the format: a
    minus sign is not part of the format language. *)
Definition unpack_count (e : endianness) (count : Z) (c : struct_code)
    (buf : list byte) : result (list Z) :=
  if count <? 0 then Raise StructError
  else unpack e (Z.to_nat count) c buf.

End Platform.

End Py.

Export Py.

Notation "x <- r ;; k" := (Py.bind r (fun x => k))
  (at level 61, r at next level, right associativity).

(** ** The module [fixreal] *)

Module Fixreal.

(** The conversion structure: the dictionary [get_conv] returns. *)
Record conv_t : Type := mk_conv {
  bits : Z;
  bin_point : Z;
  signed : bool;
  scaling : Q;
  dec_step : Q;
  dec_mask : Z;
  fmt : struct_code;
  sign_mask : Z;
  int_min : Z;
  int_mask : Z;
  int_max : Z
}.

(** The four assignments of a sign-dependent helper. *)
Definition set_sign_params (conv : conv_t) (sm imin imask imax : Z) : conv_t :=
  {| bits := bits conv; bin_point := bin_point conv; signed := signed conv;
     scaling := scaling conv; dec_step := dec_step conv;
     dec_mask := dec_mask conv; fmt := fmt conv;
     sign_mask := sm; int_min := imin; int_mask := imask; int_max := imax |}.

Definition _get_unsigned_params (conv : conv_t) : conv_t :=
  set_sign_params conv
    0
    0
    (sum (map (fun i => 2 ^ i) (range2 (bin_point conv) (bits conv))))
    (sum (map (fun i => 2 ^ i) (range (bits conv - bin_point conv)))).

Definition _get_signed_params (conv : conv_t) : conv_t :=
  set_sign_params conv
    (2 ^ (bits conv - 1))
    (-1 * 2 ^ (bits conv - 1 - bin_point conv))
    (sum (map (fun i => 2 ^ i) (range2 (bin_point conv) (bits conv - 1))))
    (sum (map (fun i => 2 ^ i) (range (bits conv - bin_point conv - 1)))).

(** The sign-dependent keys are absent from the dictionary until one of the
    helpers above assigns them; the record holds 0 there in between. *)
Definition get_conv (bits bin_point : Z) (signed : bool) (scaling : Q)
  : result conv_t :=
  p <- float_of_int (2 ^ bin_point) ;;
  let dec_step := (1 / p)%Q in
  let dec_mask := sum (map (fun i => 2 ^ i) (range bin_point)) in
  fmt <- (if bits =? 8 then Ok code_B
          else if bits =? 16 then Ok code_H
          else if bits =? 32 then Ok code_I
          else Raise (ConversionError (BitsNotSupported bits))) ;;
  let conversion_t :=
    {| bits := bits; bin_point := bin_point; signed := signed;
       scaling := scaling; dec_step := dec_step; dec_mask := dec_mask;
       fmt := fmt;
       sign_mask := 0; int_min := 0; int_mask := 0; int_max := 0 |} in
  Ok (if signed then _get_signed_params conversion_t
      else _get_unsigned_params conversion_t).

(** *** [conv_from_name] *)

(** A literal of the pattern against the start of [s], letter case ignored:
    the text matched and what follows it. *)
Fixpoint match_literal (lit s : string) : option (string * string) :=
  match lit, s with
  | EmptyString, _ => Some (EmptyString, s)
  | String a lit', String c s' =>
      if eqb_nocase a c then
        match match_literal lit' s' with
        | Some (m, rest) => Some (String c m, rest)
        | None => None
        end
      else None
  | String _ _, EmptyString => None
  end.

(** [\d+]: greedy and not empty.  The pattern continues with [_] or ends, so
    giving digits back never helps. *)
Definition match_digits (s : string) : option (string * string) :=
  match span_digits s with
  | (EmptyString, _) => None
  | (ds, rest) => Some (ds, rest)
  end.

(** [_(?P<bits>\d+)_(?P<binary>\d+)], what follows the first group. *)
Definition match_tail (s : string) : option (string * string) :=
  match match_literal "_" s with
  | None => None
  | Some (_, s1) =>
      match match_digits s1 with
      | None => None
      | Some (g_bits, s2) =>
          match match_literal "_" s2 with
          | None => None
          | Some (_, s3) =>
              match match_digits s3 with
              | None => None
              | Some (g_binary, _) => Some (g_bits, g_binary)
              end
          end
      end
  end.

(** The pattern with [prefix] for the first group. *)
Definition match_with (prefix s : string) : option (string * string * string) :=
  match match_literal prefix s with
  | None => None
  | Some (g_signed, s1) =>
      match match_tail s1 with
      | None => None
      | Some (g_bits, g_binary) => Some (g_signed, g_bits, g_binary)
      end
  end.

(** [re.match(r"^(?P<signed>u?fix)_(?P<bits>\d+)_(?P<binary>\d+)", name,
    flags = re.I)]: the groups [signed], [bits] and [binary], as they are
    written in [name].  [u?] first tries to take the [u]. *)
Definition re_match (name : string) : option (string * string * string) :=
  match match_with "ufix" name with
  | Some groups => Some groups
  | None => match_with "fix" name
  end.

Definition conv_from_name (name : string) : result conv_t :=
  match re_match name with
  | None => Raise (ConversionError (CannotInterpretName name))
  | Some (g_signed, g_bits, g_binary) =>
      let signed := String.eqb g_signed "fix" in
      let bits := int_of_digits g_bits in
      let binary := int_of_digits g_binary in
      get_conv bits binary signed 1
  end.

(** *** Decoding *)

Definition fix2real (uval : Z) (conv : conv_t) : result Q :=
  let int_val := Z.shiftr (Z.land uval (int_mask conv)) (bin_point conv) in
  let dec_val := (dec_step conv * inject_Z (Z.land uval (dec_mask conv)))%Q in
  let res :=
    if signed conv && (0 <? Z.land uval (sign_mask conv))
    then (inject_Z (int_min conv + int_val) + dec_val)%Q
    else (inject_Z int_val + dec_val)%Q in
  truediv res (scaling conv).

Section Platform.

Variable native_big_endian : bool.

Definition bin2real (binary_string : list byte) (conv : conv_t)
    (e : endianness) : result Q :=
  data <- unpack native_big_endian e 1 (fmt conv) binary_string ;;
  match data with
  | d :: _ => fix2real d conv
  | [] => Raise IndexError
  end.

Definition stream2real (binary_stream : list byte) (conv : conv_t)
    (e : endianness) : result (list Q) :=
  size <- ifloordiv (Z.of_nat (List.length binary_stream))
                    (bits conv / 8) ;;
  data <- unpack_count native_big_endian e size (fmt conv) binary_stream ;;
  mapM (fun d => fix2real d conv) data.

End Platform.

(** *** Encoding *)

Definition real2fix (real : Q) (conv : conv_t) : result Z :=
  if negb (signed conv) && Qltb real 0
  then Raise (ConversionError (CannotConvertUnsigned real))
  else
    let '(sign, real) :=
      if Qltb real 0 then (1, (real - inject_Z (int_min conv))%Q)
      else (0, real) in
    let '(int_val, dec_val) := divmod1 (Qabs real) in
    let int_val := Z.land int_val (Z.shiftr (int_mask conv) (bin_point conv)) in
    let val := inject_Z int_val in
    let dec := floordiv dec_val (dec_step conv) in
    let dec := if dec_mask conv <? dec then dec_mask conv else dec in
    let dec_val := (inject_Z dec * dec_step conv)%Q in
    let val := (val + dec_val)%Q in
    let dec :=
      if Qltb (real - val + dec_step conv) (val - real) then dec - 1
      else dec in
    if sign =? 1
    then Ok (sign_mask conv
             + Z.land (Z.shiftl int_val (bin_point conv)) (int_mask conv)
             + dec)
    else Ok (Z.land (Z.shiftl int_val (bin_point conv)) (int_mask conv) + dec).

End Fixreal.

Export Fixreal.

(** ** Vocabulary of the statements *)

(** The widths [get_conv] accepts. *)
Definition supported (bits : Z) : Prop := bits = 8 \/ bits = 16 \/ bits = 32.

(** One past the highest magnitude bit: the sign bit is not a magnitude bit. *)
Definition magnitude_top (c : conv_t) : Z :=
  if signed c then bits c - 1 else bits c.

(** The shape of a structure [get_conv] built with a binary point inside the
    word, in closed form. *)
Record wf_conv (c : conv_t) : Prop := {
  wf_bits : supported (bits c);
  wf_point : 0 <= bin_point c < bits c;
  wf_step : dec_step c = (1 / inject_Z (2 ^ bin_point c))%Q;
  wf_dec_mask : dec_mask c = 2 ^ bin_point c - 1;
  wf_fmt : Z.of_nat (code_size (fmt c)) * 8 = bits c;
  wf_sign_mask : sign_mask c = if signed c then 2 ^ (bits c - 1) else 0;
  wf_int_min :
    int_min c = if signed c then - 2 ^ (bits c - 1 - bin_point c) else 0;
  wf_int_mask : int_mask c = 2 ^ magnitude_top c - 2 ^ bin_point c
}.

(** A name in the grammar of [conv_from_name]: a prefix, the width and the
    binary point, as in [fix_8_7] and [UFix_16_10]. *)
Definition name_of (prefix : string) (bits bin_point : Z) : string :=
  (prefix ++ "_" ++ str bits ++ "_" ++ str bin_point)%string.

(** The canonical name of a format: [fix] for signed, [ufix] for unsigned. *)
Definition canonical_name (signed : bool) (bits bin_point : Z) : string :=
  name_of (if signed then "fix" else "ufix")%string bits bin_point.

(** A string with its letters in lower case: two strings are the same word in
    different letter cases when they agree after [lower_string]. *)
Fixpoint lower_string (s : string) : string :=
  match s with
  | EmptyString => EmptyString
  | String c s' => String (lower c) (lower_string s')
  end.

Fixpoint all_digits (s : string) : bool :=
  match s with
  | EmptyString => true
  | String c s' => is_digit c && all_digits s'
  end.

(** The integer a word of [bits] bits stands for: itself, or in two's
    complement when the format is signed. *)
Definition signed_value (bits : Z) (signed : bool) (raw : Z) : Z :=
  if signed && (2 ^ (bits - 1) <=? raw) then raw - 2 ^ bits else raw.

(** Inputs on which the binary64 arithmetic of [real2fix] is exact, so that
    the exact rationals of this development compute what the floats of the
    source compute.  A negative input is first shifted by [int_min]; the sum
    is exact when the input has at most [52 - bits] fractional bits.  A
    non-negative input is taken apart without rounding as it is. *)
Definition exact_input (bits : Z) (real : Q) : Prop :=
  (0 <= real)%Q
  \/ exists n m, 0 <= m <= 52 - bits
                 /\ real == inject_Z n / inject_Z (2 ^ m).

(** Text after the digits: nothing, or something that does not start with a
    digit. *)
Definition stops_digits (rest : string) : Prop :=
  match rest with
  | EmptyString => True
  | String ch _ => is_digit ch = false
  end.

(** Two structures that agree on every field other than [scaling]. *)
Definition eq_but_scaling (c1 c2 : conv_t) : Prop :=
  bits c1 = bits c2 /\ bin_point c1 = bin_point c2 /\ signed c1 = signed c2
  /\ dec_step c1 = dec_step c2 /\ dec_mask c1 = dec_mask c2
  /\ fmt c1 = fmt c2 /\ sign_mask c1 = sign_mask c2
  /\ int_min c1 = int_min c2 /\ int_mask c1 = int_mask c2
  /\ int_max c1 = int_max c2.

(** A result that is a float equal to [q]. *)
Definition returns (r : result Q) (q : Q) : Prop :=
  match r with
  | Ok x => x == q
  | Raise _ => False
  end.

(** ** Sums of powers of two and the masks they build *)

Section Masks.

Lemma fold_add_shift (l : list Z) (acc : Z) :
  fold_left Z.add l acc = acc + fold_left Z.add l 0.
Proof.
  revert acc; induction l as [|x l IH]; intros acc; simpl.
  - lia.
  - rewrite IH, (IH x). lia.
Qed.

Lemma sum_pow2_from (lo : Z) (n : nat) :
  0 <= lo ->
  sum (map (fun i => 2 ^ i) (map (fun i => lo + Z.of_nat i) (seq 0 n)))
  = 2 ^ (lo + Z.of_nat n) - 2 ^ lo.
Proof.
  intros Hlo. unfold sum. induction n as [|n IH].
  - simpl. rewrite Z.add_0_r. lia.
  - rewrite seq_S, !map_app, fold_left_app, IH. simpl.
    replace (lo + Z.pos (Pos.of_succ_nat n)) with (Z.succ (lo + Z.of_nat n)) by lia.
    rewrite Z.pow_succ_r by lia. lia.
Qed.

Lemma sum_pow2_range2 (lo hi : Z) :
  0 <= lo <= hi ->
  sum (map (fun i => 2 ^ i) (range2 lo hi)) = 2 ^ hi - 2 ^ lo.
Proof.
  intros H. unfold range2. rewrite sum_pow2_from by lia.
  rewrite Z2Nat.id by lia. f_equal. f_equal. lia.
Qed.

Lemma sum_pow2_range2_empty (lo hi : Z) :
  hi <= lo -> sum (map (fun i => 2 ^ i) (range2 lo hi)) = 0.
Proof.
  intros H. unfold range2.
  replace (Z.to_nat (hi - lo)) with O by lia. reflexivity.
Qed.

Lemma sum_pow2_range (n : Z) :
  0 <= n -> sum (map (fun i => 2 ^ i) (range n)) = 2 ^ n - 1.
Proof.
  intros H. unfold range. rewrite sum_pow2_range2 by lia. reflexivity.
Qed.

(** [2^hi - 2^lo] has exactly the bits [lo .. hi-1]. *)
Lemma pow2_diff_ones (lo hi : Z) :
  0 <= lo <= hi -> 2 ^ hi - 2 ^ lo = Z.ones (hi - lo) * 2 ^ lo.
Proof.
  intros H. rewrite Z.ones_equiv, <- Z.sub_1_r, Z.mul_sub_distr_r.
  rewrite <- Z.pow_add_r by lia. f_equal; [f_equal|]; lia.
Qed.

Lemma testbit_pow2_diff (lo hi i : Z) :
  0 <= lo <= hi ->
  Z.testbit (2 ^ hi - 2 ^ lo) i = (lo <=? i) && (i <? hi).
Proof.
  intros H. rewrite pow2_diff_ones by lia.
  rewrite Z.mul_pow2_bits by lia. rewrite Z.testbit_ones by lia.
  destruct (Z.leb_spec 0 (i - lo)), (Z.leb_spec lo i),
           (Z.ltb_spec (i - lo) (hi - lo)), (Z.ltb_spec i hi);
    simpl; try reflexivity; lia.
Qed.

Lemma pow2_pos (n : Z) : 0 <= n -> 0 < 2 ^ n.
Proof. intros; apply Z.pow_pos_nonneg; lia. Qed.

Lemma pow2_le (a b : Z) : 0 <= a <= b -> 2 ^ a <= 2 ^ b.
Proof. intros; apply Z.pow_le_mono_r; lia. Qed.

(** [x & (2^hi - 2^lo)] keeps the bits [lo .. hi-1] of [x]. *)
Lemma land_pow2_diff_mul (x lo hi : Z) :
  0 <= lo <= hi ->
  Z.land x (2 ^ hi - 2 ^ lo) = (x / 2 ^ lo) mod 2 ^ (hi - lo) * 2 ^ lo.
Proof.
  intros H. apply Z.bits_inj'. intros i Hi.
  rewrite Z.land_spec, testbit_pow2_diff by lia.
  rewrite Z.mul_pow2_bits by lia.
  rewrite Z.testbit_mod_pow2 by lia.
  destruct (Z.leb_spec lo i) as [Hle|Hlt].
  - rewrite Z.div_pow2_bits by lia.
    replace (i - lo + lo) with i by lia.
    destruct (Z.ltb_spec i hi), (Z.ltb_spec (i - lo) (hi - lo)); try lia;
      simpl; rewrite ?andb_true_r, ?andb_false_r; reflexivity.
  - simpl. rewrite andb_false_r.
    destruct (Z.ltb_spec (i - lo) (hi - lo)); simpl; [|reflexivity].
    rewrite Z.testbit_neg_r by lia. reflexivity.
Qed.

Lemma mod_pow2_split (x lo hi : Z) :
  0 <= lo <= hi ->
  x mod 2 ^ hi = (x / 2 ^ lo) mod 2 ^ (hi - lo) * 2 ^ lo + x mod 2 ^ lo.
Proof.
  intros H. replace hi with (lo + (hi - lo)) at 1 by lia.
  rewrite Z.pow_add_r by lia.
  pose proof (pow2_pos lo) as Hlo. pose proof (pow2_pos (hi - lo)) as Hd.
  rewrite Z.rem_mul_r by lia. lia.
Qed.

Lemma land_pow2_diff (x lo hi : Z) :
  0 <= lo <= hi ->
  Z.land x (2 ^ hi - 2 ^ lo) = x mod 2 ^ hi - x mod 2 ^ lo.
Proof.
  intros H. rewrite land_pow2_diff_mul, (mod_pow2_split x lo hi) by lia. lia.
Qed.

Lemma land_pow2_diff_bounds (x lo hi : Z) :
  0 <= lo <= hi ->
  0 <= Z.land x (2 ^ hi - 2 ^ lo) <= 2 ^ hi - 2 ^ lo.
Proof.
  intros H. rewrite land_pow2_diff_mul by lia.
  pose proof (pow2_pos lo) as Hlo. pose proof (pow2_pos (hi - lo)) as Hd.
  pose proof (Z.mod_pos_bound (x / 2 ^ lo) (2 ^ (hi - lo))) as Hm.
  replace (2 ^ hi) with (2 ^ (hi - lo) * 2 ^ lo)
    by (rewrite <- Z.pow_add_r by lia; f_equal; lia).
  nia.
Qed.

End Masks.

(** ** The structure [get_conv] builds *)

Section GetConv.

Variables (bits bin_point : Z) (signed : bool) (scaling : Q).

(** [2 ** bin_point] converts to a float exactly when [bin_point < 1024]. *)
Lemma float_of_pow2 :
  bin_point < 1024 ->
  float_of_int (2 ^ bin_point) = Ok (inject_Z (2 ^ bin_point)).
Proof.
  intros H. unfold float_of_int.
  assert (Hpow : 0 <= 2 ^ bin_point <= 2 ^ 1023).
  { destruct (Z.lt_ge_cases bin_point 0) as [Hn|Hn].
    - rewrite Z.pow_neg_r by lia. split; [lia|]. apply Z.pow_nonneg. lia.
    - split; [apply Z.pow_nonneg; lia|]. apply Z.pow_le_mono_r; lia. }
  assert (Hlim : 2 ^ 1023 < 2 ^ 1024 - 2 ^ 970) by (vm_compute; reflexivity).
  rewrite Z.abs_eq by apply Hpow.
  destruct (Z.ltb_spec (2 ^ bin_point) (2 ^ 1024 - 2 ^ 970)) as [_|Hge];
    [reflexivity|].
  exfalso. apply (Z.lt_irrefl (2 ^ 1023)).
  eapply Z.lt_le_trans; [exact Hlim|].
  eapply Z.le_trans; [exact Hge|apply Hpow].
Qed.

Lemma float_of_pow2_overflow :
  1024 <= bin_point -> float_of_int (2 ^ bin_point) = Raise OverflowError.
Proof.
  intros H. unfold float_of_int.
  assert (Hpow : 2 ^ 1024 <= 2 ^ bin_point) by (apply Z.pow_le_mono_r; lia).
  assert (Hlim : 2 ^ 1024 - 2 ^ 970 < 2 ^ 1024) by (vm_compute; reflexivity).
  assert (H0 : 0 <= 2 ^ bin_point) by (apply Z.pow_nonneg; lia).
  rewrite Z.abs_eq by exact H0.
  destruct (Z.ltb_spec (2 ^ bin_point) (2 ^ 1024 - 2 ^ 970)) as [Hlt|_];
    [|reflexivity].
  exfalso. apply (Z.lt_irrefl (2 ^ 1024)).
  eapply Z.le_lt_trans; [exact Hpow|].
  eapply Z.lt_trans; [exact Hlt|exact Hlim].
Qed.

Lemma get_conv_overflow :
  1024 <= bin_point ->
  get_conv bits bin_point signed scaling = Raise OverflowError.
Proof.
  intros H. unfold get_conv. rewrite (float_of_pow2_overflow H). reflexivity.
Qed.

Lemma get_conv_unsupported :
  bin_point < 1024 ->
  ~ supported bits ->
  get_conv bits bin_point signed scaling
  = Raise (ConversionError (BitsNotSupported bits)).
Proof.
  intros Hp H. unfold get_conv, supported in *.
  rewrite (float_of_pow2 Hp). cbn [Py.bind].
  destruct (Z.eqb_spec bits 8); [tauto|].
  destruct (Z.eqb_spec bits 16); [tauto|].
  destruct (Z.eqb_spec bits 32); [tauto|].
  reflexivity.
Qed.

Lemma get_conv_supported :
  supported bits /\ bin_point < 1024 ->
  exists c, get_conv bits bin_point signed scaling = Ok c
    /\ Fixreal.bits c = bits /\ Fixreal.bin_point c = bin_point
    /\ Fixreal.signed c = signed /\ Fixreal.scaling c = scaling
    /\ dec_step c = (1 / inject_Z (2 ^ bin_point))%Q
    /\ dec_mask c = sum (map (fun i => 2 ^ i) (range bin_point))
    /\ Z.of_nat (code_size (fmt c)) * 8 = bits
    /\ sign_mask c = (if signed then 2 ^ (bits - 1) else 0)
    /\ int_min c = (if signed then -1 * 2 ^ (bits - 1 - bin_point) else 0)
    /\ int_mask c
       = sum (map (fun i => 2 ^ i)
                  (range2 bin_point (if signed then bits - 1 else bits)))
    /\ int_max c
       = sum (map (fun i => 2 ^ i)
                  (range (if signed then bits - bin_point - 1
                          else bits - bin_point))).
Proof.
  intros [[H | [H | H]] Hp]; subst bits; unfold get_conv;
    rewrite (float_of_pow2 Hp); cbn [Py.bind Z.eqb Pos.eqb];
    eexists; (split; [reflexivity|]); destruct signed;
    cbn [Fixreal.bits Fixreal.bin_point Fixreal.signed Fixreal.scaling
         dec_step dec_mask fmt sign_mask int_min int_mask int_max
         _get_signed_params _get_unsigned_params set_sign_params code_size];
    repeat split; reflexivity.
Qed.

(** [get_conv] returns only for a supported width and a binary point below
    1024. *)
Lemma get_conv_Ok_supported (c : conv_t) :
  get_conv bits bin_point signed scaling = Ok c ->
  supported bits /\ bin_point < 1024.
Proof.
  intros H.
  destruct (Z.lt_ge_cases bin_point 1024) as [Hp|Hp];
    [|rewrite (get_conv_overflow Hp) in H; discriminate].
  split; [|exact Hp].
  unfold get_conv, supported in *. rewrite (float_of_pow2 Hp) in H.
  cbn [Py.bind] in H.
  destruct (Z.eqb_spec bits 8); [tauto|].
  destruct (Z.eqb_spec bits 16); [tauto|].
  destruct (Z.eqb_spec bits 32); [tauto|]. discriminate.
Qed.

Lemma get_conv_wf (c : conv_t) :
  get_conv bits bin_point signed scaling = Ok c ->
  0 <= bin_point < bits ->
  wf_conv c /\ Fixreal.bits c = bits /\ Fixreal.bin_point c = bin_point
  /\ Fixreal.signed c = signed /\ Fixreal.scaling c = scaling.
Proof.
  intros Hc Hp.
  pose proof (get_conv_Ok_supported _ Hc) as Hs.
  destruct (get_conv_supported Hs)
    as (c' & Hc' & Hb & Hbp & Hsg & Hsc & Hst & Hdm & Hf & Hsm & Hmin & Hmask & _).
  rewrite Hc in Hc'. injection Hc' as <-.
  split; [constructor | tauto].
  - rewrite Hb. apply Hs.
  - now rewrite Hb, Hbp.
  - now rewrite Hbp.
  - rewrite Hdm, Hbp. apply sum_pow2_range; lia.
  - now rewrite Hb.
  - now rewrite Hsm, Hsg, Hb.
  - rewrite Hmin, Hsg, Hb, Hbp. destruct signed; lia.
  - unfold magnitude_top. rewrite Hmask, Hsg, Hb, Hbp.
    destruct signed; apply sum_pow2_range2; lia.
Qed.

End GetConv.

(** C7, as the code has it.  [get_conv] computes [1.0 / (2 ** bin_point)]
    before it looks at the width: with [bin_point >= 1024] it raises
    [OverflowError], whatever the width.  Below that it raises
    [ConversionError] ("numer of bits not supported") exactly when [bits] is
    not 8, 16 or 32; otherwise it returns a structure and, when the binary
    point lies inside the word, [dec_step] is [1 / 2^bin_point], [dec_mask]
    is [2^bin_point - 1], and the sign-dependent fields are: unsigned,
    [sign_mask = 0], [int_min = 0], [int_mask] has exactly the bits
    [bin_point .. bits-1] and [int_max = 2^(bits-bin_point) - 1]; signed,
    [sign_mask = 2^(bits-1)], [int_min = -2^(bits-1-bin_point)], [int_mask]
    has exactly the bits [bin_point .. bits-2] and
    [int_max = 2^(bits-1-bin_point) - 1]. *)
Theorem get_conv_spec (bits bin_point : Z) (signed : bool) (scaling : Q) :
  0 <= bin_point ->
  (1024 <= bin_point ->
   get_conv bits bin_point signed scaling = Raise OverflowError)
  /\ (bin_point < 1024 ->
      (~ supported bits ->
       get_conv bits bin_point signed scaling
       = Raise (ConversionError (BitsNotSupported bits)))
      /\ (supported bits ->
          exists c, get_conv bits bin_point signed scaling = Ok c
            /\ (bin_point < bits ->
                Fixreal.bits c = bits /\ Fixreal.bin_point c = bin_point
                /\ Fixreal.signed c = signed /\ Fixreal.scaling c = scaling
                /\ dec_step c == 1 / inject_Z (2 ^ bin_point)
                /\ dec_mask c = 2 ^ bin_point - 1
                /\ if signed
                   then sign_mask c = 2 ^ (bits - 1)
                        /\ int_min c = - 2 ^ (bits - 1 - bin_point)
                        /\ (forall i, Z.testbit (int_mask c) i
                                      = (bin_point <=? i) && (i <? bits - 1))
                        /\ int_max c = 2 ^ (bits - 1 - bin_point) - 1
                   else sign_mask c = 0
                        /\ int_min c = 0
                        /\ (forall i, Z.testbit (int_mask c) i
                                      = (bin_point <=? i) && (i <? bits))
                        /\ int_max c = 2 ^ (bits - bin_point) - 1))).
Proof.
  intros Hp. split; [apply get_conv_overflow|]. intros Hlim. split.
  - apply get_conv_unsupported. exact Hlim.
  - intros Hs.
    destruct (get_conv_supported bits bin_point signed scaling (conj Hs Hlim))
      as (c & Hc & Hb & Hbp & Hsg & Hsc & Hst & Hdm & _ & Hsm & Hmin & Hmask & Hmax).
    exists c. split; [exact Hc|]. intros Hlt.
    repeat (split; [assumption|]).
    split; [rewrite Hst; reflexivity|].
    split; [rewrite Hdm; apply sum_pow2_range; lia|].
    destruct signed.
    + repeat split; try assumption.
      * intros i. rewrite Hmask, sum_pow2_range2 by lia.
        apply testbit_pow2_diff; lia.
      * rewrite Hmax, sum_pow2_range by lia. f_equal. f_equal. lia.
    + repeat split; try assumption.
      * intros i. rewrite Hmask, sum_pow2_range2 by lia.
        apply testbit_pow2_diff; lia.
      * rewrite Hmax, sum_pow2_range by lia. reflexivity.
Qed.

Lemma get_conv_spec_witness :
  (exists c, get_conv 8 5 true 1 = Ok c
     /\ sign_mask c = 128 /\ int_min c = -4 /\ int_max c = 3
     /\ dec_mask c = 31)
  /\ get_conv 24 5 true 1 = Raise (ConversionError (BitsNotSupported 24))
  /\ get_conv 8 1024 true 1 = Raise OverflowError.
Proof.
  split; [|split].
  - destruct (get_conv_spec 8 5 true 1 ltac:(lia)) as [_ H].
    destruct (H ltac:(lia)) as [_ H'].
    destruct (H' (or_introl eq_refl)) as (c & Hc & Hf).
    destruct (Hf ltac:(lia))
      as (_ & _ & _ & _ & _ & Hdm & Hsm & Hmin & _ & Hmax).
    exists c. repeat split; assumption.
  - destruct (get_conv_spec 24 5 true 1 ltac:(lia)) as [_ H].
    destruct (H ltac:(lia)) as [H' _]. apply H'.
    unfold supported. lia.
  - destruct (get_conv_spec 8 1024 true 1 ltac:(lia)) as [H _].
    apply H. lia.
Defined.

(** The width check is not all that decides whether [get_conv] fails, nor
    how: with a binary point of 1024 the supported width 8 fails, and the
    unsupported width 7 fails with [OverflowError], not [ConversionError]. *)
Lemma get_conv_overflow_counterexample :
  get_conv 8 1024 false 1 = Raise OverflowError
  /\ get_conv 7 1024 false 1 = Raise OverflowError
  /\ get_conv 7 1024 false 1 <> Raise (ConversionError (BitsNotSupported 7)).
Proof.
  split; [|split].
  - vm_compute. reflexivity.
  - vm_compute. reflexivity.
  - vm_compute. discriminate.
Qed.

(** ** Decoding: [fix2real] *)

Section Decode.

Lemma land_pow2 (x n : Z) :
  0 <= n -> Z.land x (2 ^ n) = if Z.testbit x n then 2 ^ n else 0.
Proof.
  intros Hn. apply Z.bits_inj'. intros i Hi.
  rewrite Z.land_spec, Z.pow2_bits_eqb by lia.
  destruct (Z.eqb_spec n i) as [->|Hne].
  - destruct (Z.testbit x i) eqn:E; simpl.
    + now rewrite Z.pow2_bits_true.
    + now rewrite Z.bits_0.
  - rewrite andb_false_r.
    destruct (Z.testbit x n); [now rewrite Z.pow2_bits_false|now rewrite Z.bits_0].
Qed.

Lemma sign_bit_test (x n : Z) :
  0 <= n -> (0 <? Z.land x (2 ^ n)) = Z.testbit x n.
Proof.
  intros Hn. rewrite land_pow2 by lia.
  destruct (Z.testbit x n); [|reflexivity].
  apply Z.ltb_lt, pow2_pos; lia.
Qed.

Lemma mod_mod_pow2 (x a b : Z) :
  0 <= a <= b -> (x mod 2 ^ b) mod 2 ^ a = x mod 2 ^ a.
Proof.
  intros H. apply Z.mod_mod_divide.
  exists (2 ^ (b - a)). rewrite <- Z.pow_add_r by lia. f_equal. lia.
Qed.

Lemma land_mod_pow2_diff (x lo hi n : Z) :
  0 <= lo <= hi -> hi <= n ->
  Z.land (x mod 2 ^ n) (2 ^ hi - 2 ^ lo) = Z.land x (2 ^ hi - 2 ^ lo).
Proof.
  intros H Hn. rewrite !land_pow2_diff by lia.
  rewrite !mod_mod_pow2 by lia. reflexivity.
Qed.

Lemma truediv_nonzero (a b : Q) : ~ b == 0 -> truediv a b = Ok (a / b)%Q.
Proof.
  intros H. unfold truediv.
  destruct (Qeq_bool b 0) eqn:E; [|reflexivity].
  apply Qeq_bool_eq in E. contradiction.
Qed.

Lemma truediv_zero (a b : Q) : b == 0 -> truediv a b = Raise ZeroDivisionError.
Proof.
  intros H. unfold truediv. now rewrite (Qeq_eq_bool _ _ H).
Qed.

(** The sign test of [fix2real] reads bit [bits - 1] of the raw value. *)
Lemma fix2real_sign_test (bits bin_point : Z) (signed : bool) (scaling : Q)
    (c : conv_t) (uval : Z) :
  get_conv bits bin_point signed scaling = Ok c ->
  Fixreal.signed c && (0 <? Z.land uval (sign_mask c))
  = signed && Z.testbit uval (bits - 1).
Proof.
  intros Hc.
  pose proof (get_conv_Ok_supported _ _ _ _ _ Hc) as Hs.
  destruct (get_conv_supported bits bin_point signed scaling Hs)
    as (c' & Hc' & _ & _ & Hsg & _ & _ & _ & _ & Hsm & _).
  rewrite Hc in Hc'. injection Hc' as <-.
  rewrite Hsg, Hsm. destruct signed; [|reflexivity]. simpl.
  apply sign_bit_test. destruct Hs as [[-> | [-> | ->]] _]; lia.
Qed.

End Decode.

(** C2, as the code has it.  For every structure [get_conv] builds with the
    binary point inside the word and a non-zero scaling, and every raw value,
    [fix2real] returns
    [((raw & int_mask) >> bin_point) + dec_step * (raw & dec_mask)], plus
    [int_min] when the format is signed and bit [bits - 1] of the raw value is
    set, all divided by the scaling; it returns 0 for the raw value 0; and the
    five documented decodings of [0b10000001] in 8 bits hold. *)
Theorem fix2real_spec :
  (forall bits bin_point signed scaling c uval,
      get_conv bits bin_point signed scaling = Ok c ->
      0 <= bin_point < bits ->
      ~ scaling == 0 ->
      0 <= uval ->
      returns (fix2real uval c)
        ((inject_Z (Z.shiftr (Z.land uval (int_mask c)) bin_point)
          + dec_step c * inject_Z (Z.land uval (dec_mask c))
          + (if signed && Z.testbit uval (bits - 1)
             then inject_Z (int_min c) else 0))
         / scaling)
      /\ returns (fix2real 0 c) 0)
  /\ (exists c, get_conv 8 7 true 1 = Ok c
        /\ returns (fix2real 129 c) (-127 # 128))
  /\ (exists c, get_conv 8 5 true 1 = Ok c
        /\ returns (fix2real 129 c) (-127 # 32))
  /\ (exists c, get_conv 8 0 true 1 = Ok c
        /\ returns (fix2real 129 c) (-127 # 1))
  /\ (exists c, get_conv 8 7 false 1 = Ok c
        /\ returns (fix2real 129 c) (129 # 128))
  /\ (exists c, get_conv 8 0 false 1 = Ok c
        /\ returns (fix2real 129 c) (129 # 1)).
Proof.
  split.
  - intros bits bin_point signed scaling c uval Hc _ Hsc Hu.
    pose proof (fix2real_sign_test _ _ _ _ _ uval Hc) as Hsign.
    pose proof (get_conv_Ok_supported _ _ _ _ _ Hc) as Hs.
    destruct (get_conv_supported bits bin_point signed scaling Hs)
      as (c' & Hc' & _ & Hbp & _ & Hscal & _).
    rewrite Hc in Hc'. injection Hc' as <-.
    split.
    + unfold fix2real. rewrite Hsign, Hscal, Hbp.
      rewrite truediv_nonzero by assumption. simpl.
      destruct (signed && Z.testbit uval (bits - 1)).
      * rewrite inject_Z_plus. field. assumption.
      * field. assumption.
    + unfold fix2real. rewrite !Z.land_0_l, Z.shiftr_0_l, Z.ltb_irrefl.
      rewrite andb_false_r, Hscal, truediv_nonzero by assumption. simpl.
      field. assumption.
  - repeat split; eexists; (split; [reflexivity|]); vm_compute; reflexivity.
Qed.

Lemma fix2real_spec_witness :
  exists c, get_conv 16 10 false (2 # 1) = Ok c
    /\ returns (fix2real 1025 c) (1025 # 2048)
    /\ returns (fix2real 0 c) 0.
Proof.
  eexists. split; [reflexivity|].
  pose proof (proj1 fix2real_spec 16 10 false (2 # 1) _ 1025 eq_refl
                ltac:(lia) ltac:(discriminate) ltac:(lia)) as [H1 H2].
  split; [|exact H2].
  unfold returns in *. destruct (fix2real 1025 _) as [x|]; [|contradiction].
  rewrite H1. vm_compute. reflexivity.
Defined.

(** With a scaling of zero, which [get_conv] accepts, the division raises:
    the word 0 does not decode to 0, it does not decode at all. *)
Lemma fix2real_zero_scaling_counterexample :
  exists c, get_conv 8 0 false 0 = Ok c
    /\ fix2real 0 c = Raise ZeroDivisionError
    /\ ~ returns (fix2real 0 c) 0.
Proof.
  eexists. split; [reflexivity|]. split; [reflexivity|].
  intros H. exact H.
Qed.

(** C10.  [fix2real] reads only the low [bits] bits of the raw value: for a
    structure built by [get_conv] with the binary point inside the word, the
    raw value and its remainder modulo [2^bits] decode alike (to the same
    float, or to the same exception). *)
Theorem fix2real_low_bits (bits bin_point : Z) (signed : bool) (scaling : Q)
    (c : conv_t) (uval : Z) :
  get_conv bits bin_point signed scaling = Ok c ->
  0 <= bin_point < bits ->
  0 <= uval ->
  fix2real uval c = fix2real (uval mod 2 ^ bits) c.
Proof.
  intros Hc Hp _.
  destruct (get_conv_wf _ _ _ _ _ Hc Hp) as (W & Hb & Hbp & Hsg & _).
  destruct W as [_ _ _ Wdm _ Wsm _ Wim].
  assert (Hint : Z.land (uval mod 2 ^ bits) (int_mask c) = Z.land uval (int_mask c)).
  { rewrite Wim. apply land_mod_pow2_diff; unfold magnitude_top;
      destruct (Fixreal.signed c); lia. }
  assert (Hdec : Z.land (uval mod 2 ^ bits) (dec_mask c) = Z.land uval (dec_mask c)).
  { rewrite Wdm. change (2 ^ Fixreal.bin_point c - 1)
      with (2 ^ Fixreal.bin_point c - 2 ^ 0).
    apply land_mod_pow2_diff; lia. }
  assert (Hsgn : Z.land (uval mod 2 ^ bits) (sign_mask c) = Z.land uval (sign_mask c)).
  { rewrite Wsm. destruct (Fixreal.signed c); [|now rewrite !Z.land_0_r].
    rewrite Hb.
    replace (2 ^ (bits - 1)) with (2 ^ bits - 2 ^ (bits - 1)).
    - apply land_mod_pow2_diff; lia.
    - replace bits with (Z.succ (bits - 1)) at 1 by lia.
      rewrite Z.pow_succ_r by lia. lia. }
  unfold fix2real. rewrite Hint, Hdec, Hsgn. reflexivity.
Qed.

Lemma fix2real_low_bits_witness :
  exists c, get_conv 8 5 true 1 = Ok c
    /\ fix2real 385 c = fix2real (385 mod 2 ^ 8) c.
Proof.
  eexists. split; [reflexivity|].
  apply (fix2real_low_bits 8 5 true 1 _ 385 eq_refl); lia.
Defined.

(** ** Encoding: [real2fix] *)

Section Encode.

Lemma Qltb_lt (x y : Q) : Qltb x y = true <-> (x < y)%Q.
Proof.
  unfold Qltb. rewrite negb_true_iff. split.
  - intros H. apply Qnot_le_lt. intros Hle.
    apply Qle_bool_iff in Hle. congruence.
  - intros H. destruct (Qle_bool y x) eqn:E; [|reflexivity].
    apply Qle_bool_iff in E. exfalso. exact (Qlt_not_le _ _ H E).
Qed.

Lemma Qltb_ge (x y : Q) : Qltb x y = false <-> (y <= x)%Q.
Proof.
  unfold Qltb. rewrite negb_false_iff. apply Qle_bool_iff.
Qed.

Lemma inject_Z_pow2_pos (n : Z) : 0 <= n -> (0 < inject_Z (2 ^ n))%Q.
Proof.
  intros H. change 0%Q with (inject_Z 0). rewrite <- Zlt_Qlt.
  apply pow2_pos; assumption.
Qed.

Lemma step_pos (n : Z) : 0 <= n -> (0 < 1 / inject_Z (2 ^ n))%Q.
Proof.
  intros H. apply Qlt_shift_div_l.
  - apply inject_Z_pow2_pos; assumption.
  - rewrite Qmult_0_l. reflexivity.
Qed.

Lemma Qfloor_nonneg (x : Q) : (0 <= x)%Q -> 0 <= Qfloor x.
Proof.
  intros H. change 0 with (Qfloor 0). apply Qfloor_resp_le; assumption.
Qed.

Lemma frac_bounds (x : Q) :
  (0 <= x - inject_Z (Qfloor x) /\ x - inject_Z (Qfloor x) < 1)%Q.
Proof.
  pose proof (Qfloor_le x) as H1. pose proof (Qlt_floor x) as H2.
  rewrite inject_Z_plus in H2. change (inject_Z 1) with 1%Q in H2.
  split; lra.
Qed.

(** [a // b] for a positive [b]: the largest integer [d] with [d * b <= a]. *)
Lemma floordiv_le (a b : Q) :
  (0 < b)%Q -> (inject_Z (floordiv a b) * b <= a)%Q.
Proof.
  intros Hb. unfold floordiv.
  pose proof (Qfloor_le (a / b)) as H.
  apply (Qmult_le_compat_r _ _ b) in H; [|lra].
  assert (E : (a / b * b == a)%Q) by (field; lra).
  rewrite E in H. exact H.
Qed.

Lemma floordiv_nonneg (a b : Q) :
  (0 < b)%Q -> (0 <= a)%Q -> 0 <= floordiv a b.
Proof.
  intros Hb Ha. apply Qfloor_nonneg. apply Qle_shift_div_l; lra.
Qed.

Lemma grid_frac_lt (D n : Z) :
  0 <= n -> 0 <= D < 2 ^ n -> (1 / inject_Z (2 ^ n) * inject_Z D < 1)%Q.
Proof.
  intros Hn HD. pose proof (inject_Z_pow2_pos n Hn) as Hpos.
  assert (E : (1 / inject_Z (2 ^ n) * inject_Z D
               == inject_Z D / inject_Z (2 ^ n))%Q) by (field; lra).
  rewrite E. apply Qlt_shift_div_r; [assumption|].
  rewrite Qmult_1_l, <- Zlt_Qlt. lia.
Qed.

(** The integer and fractional parts of a number on the grid of the format. *)
Lemma Qfloor_grid (I D n : Z) :
  0 <= n -> 0 <= D < 2 ^ n ->
  Qfloor (inject_Z I + 1 / inject_Z (2 ^ n) * inject_Z D) = I.
Proof.
  intros Hn HD.
  pose proof (inject_Z_pow2_pos n Hn) as Hpos.
  assert (E : (inject_Z I + 1 / inject_Z (2 ^ n) * inject_Z D
               == inject_Z (I * 2 ^ n + D) / inject_Z (2 ^ n))%Q).
  { rewrite inject_Z_plus, inject_Z_mult. field. lra. }
  rewrite E, <- Zdiv_Qdiv.
  pose proof (pow2_pos n Hn).
  rewrite Z.div_add_l by lia. rewrite Z.div_small by lia. lia.
Qed.

Lemma floordiv_grid (D n : Z) (f : Q) :
  0 <= n ->
  (f == 1 / inject_Z (2 ^ n) * inject_Z D)%Q ->
  floordiv f (1 / inject_Z (2 ^ n)) = D.
Proof.
  intros Hn Hf. unfold floordiv.
  pose proof (inject_Z_pow2_pos n Hn) as Hpos.
  assert (E : (f / (1 / inject_Z (2 ^ n)) == inject_Z D)%Q).
  { rewrite Hf. field. lra. }
  rewrite E. apply Qfloor_Z.
Qed.

Lemma clamp_bounds (m d : Z) :
  0 <= m -> 0 <= d ->
  0 <= (if m <? d then m else d) <= m /\ (if m <? d then m else d) <= d.
Proof.
  intros Hm Hd. destruct (Z.ltb_spec m d); lia.
Qed.

Lemma shiftr_pow2_diff (lo hi : Z) :
  0 <= lo <= hi -> Z.shiftr (2 ^ hi - 2 ^ lo) lo = 2 ^ (hi - lo) - 1.
Proof.
  intros H. rewrite Z.shiftr_div_pow2 by lia.
  pose proof (pow2_pos lo) as Hlo.
  replace (2 ^ hi - 2 ^ lo) with ((2 ^ (hi - lo) - 1) * 2 ^ lo).
  - apply Z.div_mul. lia.
  - rewrite Z.mul_sub_distr_r, <- Z.pow_add_r by lia.
    replace (hi - lo + lo) with hi by lia. lia.
Qed.

Lemma land_low_mask (x k : Z) : 0 <= k -> Z.land x (2 ^ k - 1) = x mod 2 ^ k.
Proof.
  intros H. rewrite <- Z.land_ones by lia. f_equal.
  rewrite Z.ones_equiv. lia.
Qed.

(** The integer part [real2fix] keeps: the integer part of the input reduced
    to the width of the magnitude field. *)
Lemma masked_int_val (c : conv_t) (x : Z) :
  wf_conv c -> magnitude_top c >= bin_point c ->
  Z.land x (Z.shiftr (int_mask c) (bin_point c))
  = x mod 2 ^ (magnitude_top c - bin_point c).
Proof.
  intros W Ht. destruct W as [_ Wp _ _ _ _ _ Wim].
  rewrite Wim, shiftr_pow2_diff by lia. apply land_low_mask. lia.
Qed.

Lemma magnitude_top_ge (c : conv_t) :
  wf_conv c -> bin_point c <= magnitude_top c <= bits c.
Proof.
  intros W. destruct W as [_ Wp _ _ _ _ _ _]. unfold magnitude_top.
  destruct (signed c); lia.
Qed.

(** With a non-negative input the quantized value never exceeds the input,
    so the rounding correction does not fire. *)
Lemma no_correction (real step : Q) (iv d : Z) :
  (0 < step)%Q ->
  iv <= Qfloor real ->
  d <= floordiv (real - inject_Z (Qfloor real)) step ->
  Qltb (real - (inject_Z iv + inject_Z d * step) + step)
       (inject_Z iv + inject_Z d * step - real) = false.
Proof.
  intros Hs Hiv Hd. apply Qltb_ge.
  pose proof (floordiv_le (real - inject_Z (Qfloor real)) step Hs) as Hf.
  rewrite Zle_Qle in Hiv, Hd.
  apply (Qmult_le_compat_r _ _ step) in Hd; [|lra].
  lra.
Qed.

End Encode.

(** C4.  For a structure built by [get_conv] with the binary point inside the
    word and an input that is not a negative number offered to an unsigned
    format, [real2fix] returns, and what it returns is a non-negative integer
    below [2^bits]. *)
Theorem real2fix_range (bits bin_point : Z) (signed : bool) (scaling : Q)
    (c : conv_t) (real : Q) :
  get_conv bits bin_point signed scaling = Ok c ->
  0 <= bin_point < bits ->
  ~ (signed = false /\ (real < 0)%Q) ->
  exists v, real2fix real c = Ok v /\ 0 <= v < 2 ^ bits.
Proof.
  intros Hc Hp Hacc.
  destruct (get_conv_wf _ _ _ _ _ Hc Hp) as (W & Hb & Hbp & Hsg & _).
  pose proof (magnitude_top_ge c W) as Htop.
  pose proof W as [_ Wp Wst Wdm _ Wsm _ Wim].
  pose proof (step_pos (Fixreal.bin_point c) ltac:(lia)) as Hstep.
  rewrite <- Wst in Hstep.
  pose proof (pow2_pos (Fixreal.bin_point c) ltac:(lia)) as Hp2.
  assert (Hpow : 2 ^ Fixreal.bits c = 2 * 2 ^ (Fixreal.bits c - 1)).
  { replace (Fixreal.bits c) with (Z.succ (Fixreal.bits c - 1)) at 1 by lia.
    apply Z.pow_succ_r. lia. }
  assert (Hmono : 2 ^ magnitude_top c <= 2 ^ Fixreal.bits c)
    by (apply pow2_le; lia).
  rewrite <- Hb.
  unfold real2fix.
  destruct (Qltb real 0) eqn:Eneg.
  - assert (Hs : Fixreal.signed c = true).
    { rewrite Hsg. destruct signed; [reflexivity|]. exfalso. apply Hacc.
      split; [reflexivity|]. now apply Qltb_lt. }
    rewrite Hs. cbv beta iota zeta delta [divmod1 negb andb].
    change (1 =? 1) with true. cbv iota.
    eexists. split; [reflexivity|].
    set (a := Qabs (real - inject_Z (int_min c))).
    set (iv := Z.land (Qfloor a) _).
    set (d0 := floordiv _ _).
    set (d1 := if dec_mask c <? d0 then dec_mask c else d0).
    set (corr := Qltb _ _).
    assert (Hd0 : 0 <= d0).
    { apply floordiv_nonneg; [assumption|]. apply frac_bounds. }
    destruct (clamp_bounds (dec_mask c) d0 ltac:(lia) Hd0) as [Hd1 _].
    fold d1 in Hd1.
    pose proof (land_pow2_diff_bounds (Z.shiftl iv (Fixreal.bin_point c))
                  (Fixreal.bin_point c) (magnitude_top c) ltac:(lia)) as Hip.
    rewrite <- Wim in Hip.
    assert (Hmt : magnitude_top c = Fixreal.bits c - 1)
      by (unfold magnitude_top; now rewrite Hs).
    rewrite Wsm, Hs. rewrite Hmt in Wim.
    pose proof (pow2_pos (Fixreal.bits c - 1) ltac:(lia)).
    destruct corr; lia.
  - rewrite andb_false_r. cbv beta iota zeta delta [divmod1].
    change (0 =? 1) with false. cbv iota.
    eexists. split; [reflexivity|].
    apply Qltb_ge in Eneg.
    set (a := Qabs real).
    set (iv := Z.land (Qfloor a) _).
    set (d0 := floordiv _ _).
    set (d1 := if dec_mask c <? d0 then dec_mask c else d0).
    assert (Ha : (a == real)%Q) by (apply Qabs_pos; assumption).
    assert (Hd0 : 0 <= d0).
    { apply floordiv_nonneg; [assumption|]. apply frac_bounds. }
    destruct (clamp_bounds (dec_mask c) d0 ltac:(lia) Hd0) as [Hd1 Hd1'].
    fold d1 in Hd1, Hd1'.
    assert (Hiv : iv <= Qfloor real).
    { unfold iv. rewrite masked_int_val by (assumption || lia).
      rewrite (Qfloor_comp _ _ Ha).
      apply Z.mod_le; [|apply pow2_pos; lia].
      apply Qfloor_nonneg; assumption. }
    assert (Hd1r : d1 <= floordiv (real - inject_Z (Qfloor real)) (dec_step c)).
    { etransitivity; [exact Hd1'|]. unfold d0, floordiv.
      apply Z.eq_le_incl, Qfloor_comp.
      rewrite (Qfloor_comp _ _ Ha), Ha. reflexivity. }
    rewrite (no_correction real (dec_step c) iv d1 Hstep Hiv Hd1r).
    pose proof (land_pow2_diff_bounds (Z.shiftl iv (Fixreal.bin_point c))
                  (Fixreal.bin_point c) (magnitude_top c) ltac:(lia)) as Hip.
    rewrite <- Wim in Hip. lia.
Qed.

Lemma real2fix_range_witness :
  exists c, get_conv 8 0 true 1 = Ok c
    /\ exists v, real2fix (-200 # 1) c = Ok v /\ 0 <= v < 2 ^ 8.
Proof.
  eexists. split; [reflexivity|].
  apply (real2fix_range 8 0 true 1 _ (-200 # 1) eq_refl); [lia|].
  intros [H _]. discriminate H.
Defined.

(** C5.  [real2fix] raises [ConversionError] ("cannot convert ... to unsigned
    representation") exactly when the format is unsigned and the input is
    negative, and it raises nothing else: every other input is encoded. *)
Theorem real2fix_sign_error (bits bin_point : Z) (signed : bool) (scaling : Q)
    (c : conv_t) (real : Q) :
  get_conv bits bin_point signed scaling = Ok c ->
  0 <= bin_point < bits ->
  (real2fix real c = Raise (ConversionError (CannotConvertUnsigned real))
   <-> signed = false /\ (real < 0)%Q)
  /\ ((exists e, real2fix real c = Raise e)
      <-> signed = false /\ (real < 0)%Q).
Proof.
  intros Hc _.
  pose proof (get_conv_Ok_supported _ _ _ _ _ Hc) as Hs.
  destruct (get_conv_supported bits bin_point signed scaling Hs)
    as (c' & Hc' & _ & _ & Hsg & _).
  rewrite Hc in Hc'. injection Hc' as <-.
  assert (Hcases :
    (signed = false /\ (real < 0)%Q
     /\ real2fix real c = Raise (ConversionError (CannotConvertUnsigned real)))
    \/ (~ (signed = false /\ (real < 0)%Q) /\ exists v, real2fix real c = Ok v)).
  { unfold real2fix. rewrite Hsg.
    destruct (Qltb real 0) eqn:Eneg.
    - destruct signed; simpl negb; cbv iota beta delta [andb].
      + right. split; [intros [H _]; discriminate H|].
        cbv beta iota zeta delta [divmod1]. change (1 =? 1) with true.
        cbv iota. eexists; reflexivity.
      + left. repeat split. now apply Qltb_lt.
    - right. split.
      + intros [_ H]. apply Qltb_lt in H. congruence.
      + rewrite andb_false_r. cbv beta iota zeta delta [divmod1].
        change (0 =? 1) with false. cbv iota. eexists; reflexivity. }
  destruct Hcases as [(H1 & H2 & H3) | (H1 & v & H2)].
  - split; split; intros _; try (split; assumption); try assumption.
    eexists; exact H3.
  - split; split.
    + rewrite H2. discriminate.
    + intros H. contradiction.
    + rewrite H2. intros [e He]. discriminate He.
    + intros H. contradiction.
Qed.

Lemma real2fix_sign_error_witness :
  exists c, get_conv 8 5 false 1 = Ok c
    /\ real2fix (-1 # 2) c
       = Raise (ConversionError (CannotConvertUnsigned (-1 # 2)))
    /\ exists v, real2fix (1 # 2) c = Ok v.
Proof.
  eexists. split; [reflexivity|].
  split.
  - apply (real2fix_sign_error 8 5 false 1 _ (-1 # 2) eq_refl); [lia|].
    split; reflexivity.
  - destruct (real2fix (1 # 2) _) as [v|e] eqn:E; [exists v; reflexivity|].
    exfalso.
    destruct (proj2 (real2fix_sign_error 8 5 false 1 _ (1 # 2) eq_refl
                       ltac:(lia))) as [H _].
    destruct (H (ex_intro _ e E)) as [_ Hneg]. discriminate Hneg.
Defined.

Lemma get_conv_eq_but_scaling (bits bin_point : Z) (signed : bool)
    (s1 s2 : Q) (c1 c2 : conv_t) :
  get_conv bits bin_point signed s1 = Ok c1 ->
  get_conv bits bin_point signed s2 = Ok c2 ->
  eq_but_scaling c1 c2.
Proof.
  intros H1 H2.
  pose proof (get_conv_Ok_supported _ _ _ _ _ H1) as Hs.
  destruct (get_conv_supported bits bin_point signed s1 Hs)
    as (c & Hc & A1 & A2 & A3 & _ & A5 & A6 & A7 & A8 & A9 & A10 & A11).
  rewrite H1 in Hc. injection Hc as <-.
  destruct (get_conv_supported bits bin_point signed s2 Hs)
    as (c & Hc & B1 & B2 & B3 & _ & B5 & B6 & B7 & B8 & B9 & B10 & B11).
  rewrite H2 in Hc. injection Hc as <-.
  unfold eq_but_scaling. repeat split; try congruence.
  destruct (fmt c1), (fmt c2); simpl in A7, B7; try reflexivity; lia.
Qed.

(** ** Round trip *)

Section RoundTrip.

Variable c : conv_t.
Hypothesis W : wf_conv c.

(** The integer field of a raw value, as [fix2real] extracts it. *)
Lemma int_field (uval : Z) :
  let I := Z.shiftr (Z.land uval (int_mask c)) (bin_point c) in
  0 <= I < 2 ^ (magnitude_top c - bin_point c)
  /\ Z.land uval (int_mask c) = I * 2 ^ bin_point c.
Proof.
  pose proof (magnitude_top_ge c W) as Htop.
  pose proof W as [_ Wp _ _ _ _ _ Wim].
  pose proof (pow2_pos (bin_point c) ltac:(lia)) as Hp2.
  cbv zeta. rewrite Wim, land_pow2_diff_mul by lia.
  rewrite Z.shiftr_div_pow2 by lia. rewrite Z.div_mul by lia.
  split; [|reflexivity].
  apply Z.mod_pos_bound, pow2_pos. lia.
Qed.

Lemma dec_field (uval : Z) :
  0 <= Z.land uval (dec_mask c) < 2 ^ bin_point c.
Proof.
  pose proof W as [_ Wp _ Wdm _ _ _ _].
  rewrite Wdm, land_low_mask by lia.
  apply Z.mod_pos_bound, pow2_pos. lia.
Qed.

(** A word of [bits] bits is the sum of its three fields. *)
Lemma fields_sum (uval : Z) :
  0 <= uval < 2 ^ bits c ->
  uval = Z.land uval (sign_mask c) + Z.land uval (int_mask c)
         + Z.land uval (dec_mask c).
Proof.
  intros Hu. pose proof W as [_ Wp _ Wdm _ Wsm _ Wim].
  rewrite Wim, Wdm, Wsm, land_low_mask by lia. unfold magnitude_top.
  destruct (signed c).
  - replace (2 ^ (bits c - 1)) with (2 ^ bits c - 2 ^ (bits c - 1)) at 1.
    + rewrite !land_pow2_diff by lia. rewrite (Z.mod_small uval (2 ^ bits c)) by lia. lia.
    + replace (bits c) with (Z.succ (bits c - 1)) at 1 by lia.
      rewrite Z.pow_succ_r by lia. lia.
  - rewrite Z.land_0_r, land_pow2_diff by lia.
    rewrite (Z.mod_small uval (2 ^ bits c)) by lia. lia.
Qed.

(** What [real2fix] computes from a number on the grid of the format. *)
Lemma grid_core (I D : Z) (r : Q) :
  0 <= I < 2 ^ (magnitude_top c - bin_point c) ->
  0 <= D < 2 ^ bin_point c ->
  (r == inject_Z I + dec_step c * inject_Z D)%Q ->
  let iv := Z.land (Qfloor (Qabs r)) (Z.shiftr (int_mask c) (bin_point c)) in
  let d0 := floordiv (Qabs r - inject_Z (Qfloor (Qabs r))) (dec_step c) in
  let d1 := if dec_mask c <? d0 then dec_mask c else d0 in
  iv = I /\ d1 = D
  /\ Qltb (r - (inject_Z iv + inject_Z d1 * dec_step c) + dec_step c)
          (inject_Z iv + inject_Z d1 * dec_step c - r) = false
  /\ Z.land (Z.shiftl I (bin_point c)) (int_mask c) = I * 2 ^ bin_point c.
Proof.
  intros HI HD Hr.
  pose proof (magnitude_top_ge c W) as Htop.
  pose proof W as [_ Wp Wst Wdm _ _ _ Wim].
  pose proof (step_pos (bin_point c) ltac:(lia)) as Hstep.
  pose proof (pow2_pos (bin_point c) ltac:(lia)) as Hp2.
  assert (Hr0 : (0 <= r)%Q).
  { rewrite Hr, Wst.
    assert (0 <= inject_Z I)%Q by (change 0%Q with (inject_Z 0); rewrite <- Zle_Qle; lia).
    assert (0 <= inject_Z D)%Q by (change 0%Q with (inject_Z 0); rewrite <- Zle_Qle; lia).
    nra. }
  assert (Ha : (Qabs r == inject_Z I + 1 / inject_Z (2 ^ bin_point c) * inject_Z D)%Q).
  { rewrite Qabs_pos by assumption. rewrite Hr, Wst. reflexivity. }
  assert (Hfl : Qfloor (Qabs r) = I).
  { rewrite (Qfloor_comp _ _ Ha). apply Qfloor_grid; lia. }
  assert (Hd0 : floordiv (Qabs r - inject_Z I) (dec_step c) = D).
  { rewrite Wst. apply floordiv_grid; [lia|]. rewrite Ha. ring. }
  cbv zeta. rewrite Hfl, Hd0.
  assert (Hiv : Z.land I (Z.shiftr (int_mask c) (bin_point c)) = I).
  { rewrite masked_int_val by (assumption || lia). apply Z.mod_small. lia. }
  rewrite Hiv.
  assert (Hd1 : (if dec_mask c <? D then dec_mask c else D) = D).
  { destruct (Z.ltb_spec (dec_mask c) D); lia. }
  rewrite Hd1.
  repeat split.
  - apply Qltb_ge. rewrite Hr, Wst in *. lra.
  - rewrite Wim, land_pow2_diff_mul by lia.
    rewrite Z.shiftl_mul_pow2, Z.div_mul by lia.
    rewrite Z.mod_small by lia. reflexivity.
Qed.

End RoundTrip.

(** C1, as the code has it.  For a structure built by [get_conv] with the
    binary point inside the word and scaling 1, and every raw value of [bits]
    bits, [fix2real] returns a float and [real2fix] maps that float back to
    the raw value, exactly: no deviation occurs, at a boundary or elsewhere. *)
Theorem round_trip (bits bin_point : Z) (signed : bool) (scaling : Q)
    (c : conv_t) (uval : Z) :
  get_conv bits bin_point signed scaling = Ok c ->
  0 <= bin_point < bits ->
  scaling == 1 ->
  0 <= uval < 2 ^ bits ->
  exists x, fix2real uval c = Ok x /\ real2fix x c = Ok uval.
Proof.
  intros Hc Hp Hsc Hu.
  destruct (get_conv_wf _ _ _ _ _ Hc Hp) as (W & Hb & Hbp & Hsg & Hscal).
  pose proof (magnitude_top_ge c W) as Htop.
  pose proof W as [_ Wp Wst Wdm _ Wsm Wmin Wim].
  pose proof (step_pos (Fixreal.bin_point c) ltac:(lia)) as Hstep.
  rewrite <- Wst in Hstep.
  rewrite <- Hb in Hu.
  pose proof (fields_sum c W uval Hu) as Hsum.
  destruct (int_field c W uval) as [HI HM]. cbv zeta in HI, HM.
  pose proof (dec_field c W uval) as HD.
  assert (Hnz : ~ Fixreal.scaling c == 0).
  { rewrite Hscal, Hsc. discriminate. }
  unfold fix2real. rewrite (truediv_nonzero _ _ Hnz).
  eexists. split; [reflexivity|].
  set (I := Z.shiftr (Z.land uval (int_mask c)) (Fixreal.bin_point c)) in *.
  set (D := Z.land uval (dec_mask c)) in *.
  assert (HIq : (0 <= inject_Z I)%Q)
    by (change 0%Q with (inject_Z 0); rewrite <- Zle_Qle; lia).
  assert (HDq : (0 <= inject_Z D)%Q)
    by (change 0%Q with (inject_Z 0); rewrite <- Zle_Qle; lia).
  assert (Hone : Fixreal.scaling c == 1) by (rewrite Hscal; exact Hsc).
  destruct (Fixreal.signed c && (0 <? Z.land uval (sign_mask c))) eqn:Esign.
  - apply andb_true_iff in Esign. destruct Esign as [Hs Hbit].
    apply Z.ltb_lt in Hbit.
    rewrite Hs in Wsm, Wmin.
    assert (Hmt : magnitude_top c = Fixreal.bits c - 1)
      by (unfold magnitude_top; now rewrite Hs).
    assert (Hland : Z.land uval (sign_mask c) = sign_mask c).
    { rewrite Wsm in *. rewrite land_pow2 in * by lia.
      destruct (Z.testbit uval (Fixreal.bits c - 1)); [reflexivity|lia]. }
    set (x := ((inject_Z (int_min c + I) + dec_step c * inject_Z D)
               / Fixreal.scaling c)%Q).
    assert (Hx : (x - inject_Z (int_min c)
                  == inject_Z I + dec_step c * inject_Z D)%Q).
    { unfold x. rewrite Hone, inject_Z_plus. field. }
    assert (HDlt : (dec_step c * inject_Z D < 1)%Q).
    { rewrite Wst. apply grid_frac_lt; lia. }
    assert (Hneg : Qltb x 0 = true).
    { apply Qltb_lt.
      assert (Hle : (inject_Z (int_min c + I) <= inject_Z (-1))%Q).
      { rewrite <- Zle_Qle. rewrite Hmt in HI. lia. }
      change (inject_Z (-1)) with (-1)%Q in Hle.
      assert (Hx' : (x == inject_Z (int_min c + I) + dec_step c * inject_Z D)%Q).
      { unfold x. rewrite Hone. field. }
      rewrite Hx'. lra. }
    unfold real2fix. rewrite Hs, Hneg.
    cbv beta iota zeta delta [divmod1 negb andb].
    change (1 =? 1) with true. cbv iota.
    destruct (grid_core c W I D (x - inject_Z (int_min c)) HI HD Hx)
      as (E1 & E2 & E3 & E4).
    cbv zeta in E1, E2, E3.
    rewrite E3, E2, E1, E4. f_equal. lia.
  - assert (Hland : Z.land uval (sign_mask c) = 0).
    { apply andb_false_iff in Esign. destruct Esign as [Hs | Hbit].
      - rewrite Wsm, Hs. apply Z.land_0_r.
      - apply Z.ltb_ge in Hbit.
        assert (0 <= Z.land uval (sign_mask c)) by (apply Z.land_nonneg; lia).
        lia. }
    set (x := ((inject_Z I + dec_step c * inject_Z D) / Fixreal.scaling c)%Q).
    assert (Hx : (x == inject_Z I + dec_step c * inject_Z D)%Q).
    { unfold x. rewrite Hone. field. }
    assert (Hneg : Qltb x 0 = false).
    { apply Qltb_ge. rewrite Hx. nra. }
    unfold real2fix. rewrite Hneg, andb_false_r.
    cbv beta iota zeta delta [divmod1].
    change (0 =? 1) with false. cbv iota.
    destruct (grid_core c W I D x HI HD Hx) as (E1 & E2 & E3 & E4).
    cbv zeta in E1, E2, E3.
    rewrite E3, E2, E1, E4. f_equal. lia.
Qed.

Lemma round_trip_witness :
  exists c x, get_conv 8 7 true 1 = Ok c
    /\ fix2real 129 c = Ok x /\ real2fix x c = Ok 129.
Proof.
  eexists.
  destruct (round_trip 8 7 true 1 _ 129 eq_refl) as (x & H1 & H2);
    [lia | reflexivity | lia |].
  exists x. split; [reflexivity|]. split; assumption.
Defined.

(** With a scaling other than 1 the round trip fails, and by more than one
    step: under scaling 4 the 8-bit unsigned word 200 decodes to 50, which
    encodes to the word 50; the two words decode 37.5 apart with a step
    of 1. *)
Lemma round_trip_scaling_counterexample :
  exists c x y, get_conv 8 0 false (4 # 1) = Ok c
    /\ fix2real 200 c = Ok x /\ real2fix x c = Ok 50
    /\ fix2real 50 c = Ok y /\ (dec_step c < Qabs (x - y))%Q.
Proof.
  eexists. eexists. eexists.
  split; [reflexivity|]. split; [reflexivity|]. split; [reflexivity|].
  split; [reflexivity|]. reflexivity.
Qed.

(** ** Buffers: [bin2real] and [stream2real] *)

Section Buffers.

Variable native_big_endian : bool.

Lemma mapM_ok {A B : Type} (f : A -> result B) (g : A -> B) (l : list A) :
  (forall a, f a = Ok (g a)) -> mapM f l = Ok (map g l).
Proof.
  intros H. induction l as [|a l IH]; simpl; [reflexivity|].
  rewrite H, IH. reflexivity.
Qed.

Lemma mapM_ok_ex {A B : Type} (f : A -> result B) (l : list A) :
  (forall a, exists b, f a = Ok b) -> exists bs, mapM f l = Ok bs.
Proof.
  intros H. induction l as [|a l [bs IH]]; simpl.
  - eexists; reflexivity.
  - destruct (H a) as [b ->]. rewrite IH. eexists; reflexivity.
Qed.

Lemma mapM_ext_in {A B : Type} (f g : A -> result B) (l : list A) :
  (forall a, In a l -> f a = g a) -> mapM f l = mapM g l.
Proof.
  intros H. induction l as [|a l IH]; simpl; [reflexivity|].
  rewrite (H a) by (left; reflexivity). rewrite IH; [reflexivity|].
  intros b Hb. apply H. right. exact Hb.
Qed.

Lemma mapM_map {A B C : Type} (f : B -> result C) (h : A -> B) (l : list A) :
  mapM f (map h l) = mapM (fun a => f (h a)) l.
Proof.
  induction l as [|a l IH]; simpl; [reflexivity|]. now rewrite IH.
Qed.

Lemma items_length (n k : nat) (buf : list byte) :
  List.length (items n k buf) = n.
Proof.
  revert buf; induction n as [|n IH]; intros buf; simpl; [reflexivity|].
  now rewrite IH.
Qed.

Lemma items_chunk_length (n k : nat) (buf chunk : list byte) :
  List.length buf = (n * k)%nat -> In chunk (items n k buf) ->
  List.length chunk = k.
Proof.
  revert buf; induction n as [|n IH]; intros buf Hlen Hin; simpl in *.
  - contradiction.
  - destruct Hin as [<- | Hin].
    + rewrite length_firstn. lia.
    + apply (IH (skipn k buf)); [|exact Hin]. rewrite length_skipn. lia.
Qed.

Lemma items_nth (n k i : nat) (buf : list byte) :
  (i < n)%nat ->
  nth_error (items n k buf) i = Some (firstn k (skipn (i * k) buf)).
Proof.
  revert i buf; induction n as [|n IH]; intros i buf Hi; [lia|].
  destruct i as [|i]; simpl.
  - reflexivity.
  - rewrite IH by lia. rewrite skipn_skipn. do 3 f_equal. lia.
Qed.

(** [fix2real] raises nothing but [ZeroDivisionError]. *)
Lemma fix2real_cases (uval : Z) (c : conv_t) :
  (scaling c == 0 /\ fix2real uval c = Raise ZeroDivisionError)
  \/ (~ scaling c == 0 /\ exists x, fix2real uval c = Ok x).
Proof.
  unfold fix2real, truediv.
  destruct (Qeq_bool (scaling c) 0) eqn:E.
  - left. split; [now apply Qeq_bool_eq|reflexivity].
  - right. split; [now apply Qeq_bool_neq|eexists; reflexivity].
Qed.

Lemma mapM_fix2real_cases (c : conv_t) (l : list Z) :
  mapM (fun d => fix2real d c) l = Raise ZeroDivisionError
  \/ exists xs, mapM (fun d => fix2real d c) l = Ok xs.
Proof.
  induction l as [|d l IH]; simpl.
  - right. eexists; reflexivity.
  - destruct (fix2real_cases d c) as [[_ ->] | [_ [x ->]]]; simpl.
    + left; reflexivity.
    + destruct IH as [-> | [xs ->]]; simpl.
      * left; reflexivity.
      * right. eexists; reflexivity.
Qed.

(** One item of the right size: [bin2real] decodes the integer it spells. *)
Lemma bin2real_chunk (c : conv_t) (e : endianness) (chunk : list byte) :
  List.length chunk = code_size (fmt c) ->
  bin2real native_big_endian chunk c e
  = fix2real (uint_of_bytes native_big_endian e chunk) c.
Proof.
  intros Hlen. unfold bin2real, unpack.
  rewrite Hlen, Nat.mul_1_l, Nat.eqb_refl. simpl.
  rewrite <- Hlen, firstn_all. reflexivity.
Qed.

Lemma bin2real_bad_length (c : conv_t) (e : endianness) (buf : list byte) :
  List.length buf <> code_size (fmt c) ->
  bin2real native_big_endian buf c e = Raise StructError.
Proof.
  intros Hlen. unfold bin2real, unpack. rewrite Nat.mul_1_l.
  destruct (Nat.eqb_spec (List.length buf) (code_size (fmt c))); [contradiction|].
  reflexivity.
Qed.

Lemma code_size_pos (c : struct_code) : (0 < code_size c)%nat.
Proof. destruct c; simpl; lia. Qed.

(** [stream2real] on a buffer: the items [struct.unpack] cuts, decoded in
    order, or [struct.error] when the length is not a multiple of the item
    size. *)
Lemma stream2real_unfold (c : conv_t) (e : endianness) (buf : list byte) :
  bits c / 8 = Z.of_nat (code_size (fmt c)) ->
  let k := code_size (fmt c) in
  let n := (List.length buf / k)%nat in
  stream2real native_big_endian buf c e
  = if Nat.eqb (List.length buf mod k) 0
    then mapM (fun d => fix2real d c)
              (map (uint_of_bytes native_big_endian e) (items n k buf))
    else Raise StructError.
Proof.
  intros Hk k n. pose proof (code_size_pos (fmt c)) as Hpos. fold k in Hpos, Hk.
  unfold stream2real, ifloordiv, unpack_count, unpack. rewrite Hk.
  destruct (Z.eqb_spec (Z.of_nat k) 0) as [H0|_]; [lia|]. simpl Py.bind.
  rewrite <- Nat2Z.inj_div.
  destruct (Z.ltb_spec (Z.of_nat (List.length buf / k)) 0) as [Hlt|_]; [lia|].
  rewrite Nat2Z.id. fold k n.
  pose proof (Nat.div_mod_eq (List.length buf) k) as Hdm. fold n in Hdm.
  destruct (Nat.eqb_spec (List.length buf mod k) 0) as [Hm|Hm].
  - destruct (Nat.eqb_spec (List.length buf) (n * k)) as [_|Hne]; [reflexivity|nia].
  - destruct (Nat.eqb_spec (List.length buf) (n * k)) as [He|_]; [nia|reflexivity].
Qed.

End Buffers.

Lemma get_conv_item_size (bits bin_point : Z) (signed : bool) (scaling : Q)
    (c : conv_t) :
  get_conv bits bin_point signed scaling = Ok c ->
  Fixreal.bits c = bits /\ Fixreal.scaling c = scaling
  /\ bits / 8 = Z.of_nat (code_size (fmt c)).
Proof.
  intros Hc.
  pose proof (get_conv_Ok_supported _ _ _ _ _ Hc) as Hs.
  destruct (get_conv_supported bits bin_point signed scaling Hs)
    as (c' & Hc' & Hb & _ & _ & Hsc & _ & _ & Hf & _).
  rewrite Hc in Hc'. injection Hc' as <-.
  repeat split; try assumption.
  rewrite <- Hf. apply Z.div_mul. lia.
Qed.

(** C6.  For a structure built by [get_conv], [bin2real] raises
    [struct.error] exactly when the buffer is not [bits / 8] bytes long, and
    [stream2real] raises it exactly when the length of the buffer is not a
    multiple of [bits / 8]; with the right length and a non-zero scaling both
    return. *)
Theorem buffer_length_errors (native_big_endian : bool) (bits bin_point : Z)
    (signed : bool) (scaling : Q) (c : conv_t) (e : endianness)
    (buf : list byte) :
  get_conv bits bin_point signed scaling = Ok c ->
  0 <= bin_point < bits ->
  (bin2real native_big_endian buf c e = Raise StructError
   <-> Z.of_nat (List.length buf) <> bits / 8)
  /\ (stream2real native_big_endian buf c e = Raise StructError
      <-> Z.of_nat (List.length buf) mod (bits / 8) <> 0)
  /\ (~ scaling == 0 ->
      (Z.of_nat (List.length buf) = bits / 8 ->
       exists x, bin2real native_big_endian buf c e = Ok x)
      /\ (Z.of_nat (List.length buf) mod (bits / 8) = 0 ->
          exists xs, stream2real native_big_endian buf c e = Ok xs)).
Proof.
  intros Hc _.
  destruct (get_conv_item_size _ _ _ _ _ Hc) as (Hb & Hsc & Hk).
  pose proof (code_size_pos (fmt c)) as Hpos.
  rewrite Hk. rewrite <- Hb in Hk.
  rewrite (stream2real_unfold native_big_endian c e buf Hk). cbv zeta.
  rewrite <- Nat2Z.inj_mod.
  set (k := code_size (fmt c)) in *.
  split; [|split].
  - split.
    + intros H Hlen. apply Nat2Z.inj in Hlen.
      rewrite (bin2real_chunk native_big_endian c e buf Hlen) in H.
      destruct (fix2real_cases (uint_of_bytes native_big_endian e buf) c)
        as [[_ E] | [_ [x E]]]; rewrite E in H; discriminate H.
    + intros Hlen. apply bin2real_bad_length. fold k. lia.
  - destruct (Nat.eqb_spec (List.length buf mod k) 0) as [Hm|Hm].
    + split; [|lia]. intros H. exfalso.
      rewrite mapM_map in H.
      destruct (mapM_fix2real_cases c
                  (map (uint_of_bytes native_big_endian e)
                       (items (List.length buf / k) k buf)))
        as [E | [xs E]]; rewrite mapM_map in E; rewrite E in H; discriminate H.
    + split; [lia | reflexivity].
  - intros Hnz. rewrite <- Hsc in Hnz. split.
    + intros Hlen. apply Nat2Z.inj in Hlen.
      rewrite (bin2real_chunk native_big_endian c e buf Hlen).
      destruct (fix2real_cases (uint_of_bytes native_big_endian e buf) c)
        as [[E _] | [_ H]]; [contradiction | exact H].
    + intros Hm.
      destruct (Nat.eqb_spec (List.length buf mod k) 0) as [_|Hm']; [|lia].
      apply mapM_ok_ex. intros d.
      destruct (fix2real_cases d c) as [[E _] | [_ H]]; [contradiction | exact H].
Qed.

Lemma buffer_length_errors_witness :
  exists c, get_conv 16 0 false 1 = Ok c
    /\ stream2real false [x01; x02; x03]%byte c Little = Raise StructError
    /\ bin2real false [x01; x02; x03]%byte c Little = Raise StructError
    /\ exists xs, stream2real false [x01; x02; x03; x04]%byte c Little = Ok xs.
Proof.
  eexists. split; [reflexivity|].
  pose proof (buffer_length_errors false 16 0 false 1 _ Little
                [x01; x02; x03]%byte eq_refl ltac:(lia)) as (Hb & Hs & _).
  pose proof (buffer_length_errors false 16 0 false 1 _ Little
                [x01; x02; x03; x04]%byte eq_refl ltac:(lia)) as (_ & _ & Hok).
  split; [apply Hs; discriminate|].
  split; [apply Hb; discriminate|].
  apply Hok; [discriminate|reflexivity].
Defined.

(** C8, as the code has it.  For a structure built by [get_conv] and a
    buffer of [n] items of
    [bits / 8] bytes, [stream2real] is [bin2real] mapped over the [n]
    consecutive slices of the buffer, in order, with the same byte order; with
    a non-zero scaling it returns a list of exactly [n] floats whose [i]-th
    element is what [bin2real] returns on the [i]-th slice. *)
Theorem stream2real_elementwise (native_big_endian : bool) (bits bin_point : Z)
    (signed : bool) (scaling : Q) (c : conv_t) (e : endianness)
    (buf : list byte) (n : nat) :
  get_conv bits bin_point signed scaling = Ok c ->
  0 <= bin_point < bits ->
  Z.of_nat (List.length buf) = Z.of_nat n * (bits / 8) ->
  let k := Z.to_nat (bits / 8) in
  stream2real native_big_endian buf c e
  = mapM (fun chunk => bin2real native_big_endian chunk c e) (items n k buf)
  /\ (~ scaling == 0 ->
      exists xs, stream2real native_big_endian buf c e = Ok xs
        /\ List.length xs = n
        /\ forall i, (i < n)%nat ->
             exists x, nth_error xs i = Some x
               /\ bin2real native_big_endian
                    (firstn k (skipn (i * k) buf)) c e = Ok x).
Proof.
  intros Hc _ Hlen k.
  destruct (get_conv_item_size _ _ _ _ _ Hc) as (Hb & Hsc & Hk).
  pose proof (code_size_pos (fmt c)) as Hpos.
  assert (Hkk : k = code_size (fmt c)) by (unfold k; rewrite Hk; apply Nat2Z.id).
  rewrite Hk in Hlen. rewrite <- Hkk in Hlen, Hpos.
  assert (Hlen' : List.length buf = (n * k)%nat) by lia.
  rewrite <- Hb in Hk.
  rewrite (stream2real_unfold native_big_endian c e buf Hk). cbv zeta.
  rewrite <- Hkk.
  rewrite Hlen', Nat.Div0.mod_mul, Nat.div_mul by lia.
  change (Nat.eqb 0 0) with true. cbv iota.
  rewrite mapM_map.
  assert (Hchunks : forall chunk, In chunk (items n k buf) ->
            fix2real (uint_of_bytes native_big_endian e chunk) c
            = bin2real native_big_endian chunk c e).
  { intros chunk Hin. symmetry. apply bin2real_chunk.
    rewrite <- Hkk. eapply items_chunk_length; eassumption. }
  split.
  - apply mapM_ext_in. exact Hchunks.
  - intros Hnz. rewrite <- Hsc in Hnz.
    assert (Hg : exists g, forall d, fix2real d c = Ok (g d)).
    { unfold fix2real. eexists. intros d.
      rewrite (truediv_nonzero _ _ Hnz). reflexivity. }
    destruct Hg as [g Hg].
    rewrite (mapM_ok _ (fun chunk => g (uint_of_bytes native_big_endian e chunk)))
      by (intros; apply Hg).
    eexists. split; [reflexivity|]. split.
    + rewrite length_map. apply items_length.
    + intros i Hi. eexists. split.
      * apply map_nth_error. apply items_nth. exact Hi.
      * rewrite <- Hchunks.
        -- apply Hg.
        -- eapply nth_error_In. apply items_nth. exact Hi.
Qed.

Lemma stream2real_elementwise_witness :
  exists c, get_conv 16 0 false 1 = Ok c
    /\ stream2real false [x01; x02; x03; x04]%byte c Big
       = mapM (fun chunk => bin2real false chunk c Big)
              [[x01; x02]; [x03; x04]]%byte
    /\ exists xs, stream2real false [x01; x02; x03; x04]%byte c Big = Ok xs
         /\ List.length xs = 2%nat.
Proof.
  eexists. split; [reflexivity|].
  pose proof (stream2real_elementwise false 16 0 false 1 _ Big
                [x01; x02; x03; x04]%byte 2 eq_refl ltac:(lia) eq_refl)
    as [H1 H2].
  split; [exact H1|].
  destruct (H2 ltac:(discriminate)) as (xs & E & L & _).
  exists xs. split; assumption.
Defined.

(** With a scaling of zero a buffer of one item does not decode to a list of
    one number: [stream2real] raises, as [bin2real] does on the item. *)
Lemma stream2real_zero_scaling_counterexample :
  exists c, get_conv 8 0 false 0 = Ok c
    /\ Z.of_nat (List.length [x01]%byte) = 1 * (8 / 8)
    /\ stream2real false [x01]%byte c Little = Raise ZeroDivisionError
    /\ bin2real false [x01]%byte c Little = Raise ZeroDivisionError.
Proof.
  eexists. split; [reflexivity|]. repeat split; reflexivity.
Qed.

(** ** Names: [conv_from_name] *)

Section Names.

Lemma lower_idem (c : ascii) : lower (lower c) = lower c.
Proof.
  destruct c as [[] [] [] [] [] [] [] []]; reflexivity.
Qed.

(** A literal in lower case matches any spelling of itself, and captures the
    spelling it finds. *)
Lemma match_literal_cased (lit p rest : string) :
  lower_string lit = lit -> lower_string p = lit ->
  match_literal lit (p ++ rest) = Some (p, rest).
Proof.
  revert p; induction lit as [|a lit IH]; intros [|c p] Hlit Hp;
    simpl in *; try discriminate; [reflexivity|].
  injection Hlit as Ha Hlit'. injection Hp as Hc Hp'.
  unfold eqb_nocase. rewrite Ha, Hc, Ascii.eqb_refl.
  rewrite (IH p Hlit' Hp'). reflexivity.
Qed.

Lemma match_literal_first (lit s : string) (a c : ascii) :
  eqb_nocase a c = false -> match_literal (String a lit) (String c s) = None.
Proof. intros H. simpl. now rewrite H. Qed.

Lemma span_digits_stop (ds rest : string) :
  all_digits ds = true ->
  span_digits (ds ++ String "_" rest) = (ds, String "_" rest).
Proof.
  induction ds as [|d ds IH]; intros H; simpl in *; [reflexivity|].
  apply andb_true_iff in H. destruct H as [Hd Hds].
  rewrite Hd, (IH Hds). reflexivity.
Qed.

Lemma span_digits_all (ds : string) :
  all_digits ds = true -> span_digits ds = (ds, EmptyString).
Proof.
  induction ds as [|d ds IH]; intros H; simpl in *; [reflexivity|].
  apply andb_true_iff in H. destruct H as [Hd Hds].
  rewrite Hd, (IH Hds). reflexivity.
Qed.

Lemma match_tail_digits (b p : string) :
  all_digits b = true -> b <> EmptyString ->
  all_digits p = true -> p <> EmptyString ->
  match_tail ("_" ++ b ++ "_" ++ p) = Some (b, p).
Proof.
  intros Hb Hbne Hp Hpne. unfold match_tail, match_digits. simpl.
  rewrite (span_digits_stop b p Hb).
  destruct b as [|b0 b']; [contradiction|]. simpl.
  rewrite (span_digits_all p Hp).
  destruct p as [|p0 p']; [contradiction|]. reflexivity.
Qed.

(** The decimal numerals of the widths and binary points in use. *)
Lemma str_small (z : Z) :
  0 <= z <= 32 ->
  all_digits (str z) = true /\ str z <> EmptyString
  /\ int_of_digits (str z) = z.
Proof.
  intros H.
  assert (E : exists n, z = Z.of_nat n /\ (n <= 32)%nat)
    by (exists (Z.to_nat z); lia).
  destruct E as (n & -> & Hn).
  do 33 (destruct n as [|n];
         [repeat split; try reflexivity; discriminate|]).
  lia.
Qed.

(** What [conv_from_name] does with a well-formed name whose prefix is [fix]
    or [ufix] in any letter case: the width and the binary point are read
    back, and the format is signed when the prefix is [fix] in lower case,
    unsigned for every other spelling. *)
Lemma conv_from_name_cased (p : string) (bits bin_point : Z) :
  lower_string p = "fix"%string \/ lower_string p = "ufix"%string ->
  0 <= bits <= 32 -> 0 <= bin_point <= 32 ->
  conv_from_name (name_of p bits bin_point)
  = get_conv bits bin_point (String.eqb p "fix") 1.
Proof.
  intros Hp Hb Hq.
  destruct (str_small bits Hb) as (B1 & B2 & B3).
  destruct (str_small bin_point Hq) as (P1 & P2 & P3).
  unfold conv_from_name, re_match, match_with, name_of.
  destruct Hp as [Hp | Hp].
  - assert (Hu : match_literal "ufix"
                   (p ++ "_" ++ str bits ++ "_" ++ str bin_point) = None).
    { destruct p as [|c p]; [discriminate|]. injection Hp as Hc _.
      apply match_literal_first. unfold eqb_nocase. rewrite Hc. reflexivity. }
    rewrite Hu. rewrite (match_literal_cased "fix" p _ eq_refl Hp).
    rewrite (match_tail_digits _ _ B1 B2 P1 P2).
    rewrite B3, P3. reflexivity.
  - rewrite (match_literal_cased "ufix" p _ eq_refl Hp).
    rewrite (match_tail_digits _ _ B1 B2 P1 P2).
    rewrite B3, P3. reflexivity.
Qed.

End Names.

(** The canonical names, in lower case, give back the structure of the format
    they name. *)
Lemma conv_from_canonical_name (signed : bool) (bits bin_point : Z) :
  supported bits -> 0 <= bin_point < bits ->
  conv_from_name (canonical_name signed bits bin_point)
  = get_conv bits bin_point signed 1.
Proof.
  intros Hs Hp. unfold canonical_name.
  assert (Hb : 0 <= bits <= 32) by (destruct Hs as [-> | [-> | ->]]; lia).
  destruct signed.
  - apply (conv_from_name_cased "fix"); [left; reflexivity | lia | lia].
  - apply (conv_from_name_cased "ufix"); [right; reflexivity | lia | lia].
Qed.

(** Any other spelling of the signed prefix is read as unsigned. *)
Lemma conv_from_name_sign_lost (p : string) (bits bin_point : Z) :
  lower_string p = "fix"%string -> p <> "fix"%string ->
  supported bits -> 0 <= bin_point < bits ->
  conv_from_name (name_of p bits bin_point) = get_conv bits bin_point false 1.
Proof.
  intros Hl Hne Hs Hp.
  assert (Hb : 0 <= bits <= 32) by (destruct Hs as [-> | [-> | ->]]; lia).
  rewrite conv_from_name_cased by (auto; lia).
  destruct (String.eqb_spec p "fix"); [contradiction|reflexivity].
Qed.

(** C3.  [conv_from_name] does not read the signedness off the prefix
    regardless of letter case: the pattern accepts [Fix_8_7], the simulink
    spelling of the signed 8-bit format with 7 fractional bits, and the
    structure returned is the unsigned one, which differs from the signed one
    the lower-case name [fix_8_7] gives. *)
Theorem conv_from_name_Fix_8_7 :
  "Fix_8_7"%string = name_of "Fix" 8 7
  /\ lower_string "Fix" = "fix"%string
  /\ conv_from_name "Fix_8_7" = get_conv 8 7 false 1
  /\ conv_from_name "fix_8_7" = get_conv 8 7 true 1
  /\ get_conv 8 7 false 1 <> get_conv 8 7 true 1.
Proof.
  repeat split; try reflexivity. discriminate.
Qed.

(** ** The values the conversions compute *)

Section Values.

Lemma Qfloor_unique (x : Q) (k : Z) :
  (inject_Z k <= x)%Q -> (x < inject_Z (k + 1))%Q -> Qfloor x = k.
Proof.
  intros H1 H2.
  pose proof (Qfloor_le x) as F1. pose proof (Qlt_floor x) as F2.
  assert (A : k < Qfloor x + 1).
  { rewrite Zlt_Qlt. eapply Qle_lt_trans; eassumption. }
  assert (B : Qfloor x < k + 1).
  { rewrite Zlt_Qlt. eapply Qle_lt_trans; eassumption. }
  lia.
Qed.

Lemma Qfloor_add_Z (z : Z) (y : Q) :
  Qfloor (inject_Z z + y) = z + Qfloor y.
Proof.
  pose proof (Qfloor_le y) as F1. pose proof (Qlt_floor y) as F2.
  apply Qfloor_unique; rewrite ?inject_Z_plus in *; lra.
Qed.

(** Scaling by [2^n] commutes with taking the integer part apart. *)
Lemma Qfloor_scale (x : Q) (n : Z) :
  0 <= n ->
  Qfloor (x * inject_Z (2 ^ n))
  = Qfloor x * 2 ^ n
    + floordiv (x - inject_Z (Qfloor x)) (1 / inject_Z (2 ^ n)).
Proof.
  intros Hn. pose proof (inject_Z_pow2_pos n Hn) as Hpos.
  unfold floordiv. rewrite <- Qfloor_add_Z. apply Qfloor_comp.
  rewrite inject_Z_mult. field. lra.
Qed.

Lemma floordiv_frac_bounds (x : Q) (n : Z) :
  0 <= n ->
  0 <= floordiv (x - inject_Z (Qfloor x)) (1 / inject_Z (2 ^ n)) < 2 ^ n.
Proof.
  intros Hn. pose proof (inject_Z_pow2_pos n Hn) as Hpos.
  pose proof (step_pos n Hn) as Hstep.
  destruct (frac_bounds x) as [F1 F2].
  split.
  - apply floordiv_nonneg; assumption.
  - pose proof (floordiv_le (x - inject_Z (Qfloor x)) _ Hstep) as Hle.
    rewrite Zlt_Qlt.
    assert (E : (inject_Z (floordiv (x - inject_Z (Qfloor x)) (1 / inject_Z (2 ^ n)))
                 * (1 / inject_Z (2 ^ n)) < 1)%Q) by lra.
    apply (Qmult_lt_compat_r _ _ (inject_Z (2 ^ n))) in E; [|assumption].
    rewrite Qmult_1_l in E.
    eapply Qle_lt_trans; [|exact E].
    apply Qle_lteq. right. field. lra.
Qed.

Lemma land_sign (x n : Z) :
  1 <= n -> 0 <= x < 2 ^ n ->
  Z.land x (2 ^ (n - 1)) = if 2 ^ (n - 1) <=? x then 2 ^ (n - 1) else 0.
Proof.
  intros Hn Hx.
  assert (Hp : 2 ^ n = 2 * 2 ^ (n - 1)).
  { replace n with (Z.succ (n - 1)) at 1 by lia. apply Z.pow_succ_r. lia. }
  pose proof (pow2_pos (n - 1) ltac:(lia)) as Hpos.
  replace (2 ^ (n - 1)) with (2 ^ n - 2 ^ (n - 1)) at 1 by lia.
  rewrite land_pow2_diff by lia. rewrite (Z.mod_small x (2 ^ n)) by lia.
  destruct (Z.leb_spec (2 ^ (n - 1)) x) as [Hge|Hlt].
  - replace x with ((x - 2 ^ (n - 1)) + 1 * 2 ^ (n - 1)) at 2 by lia.
    rewrite Z.mod_add by lia. rewrite Z.mod_small by lia. lia.
  - rewrite Z.mod_small by lia. lia.
Qed.

Variable c : conv_t.
Hypothesis W : wf_conv c.

(** The sign test of [fix2real] on a word of [bits] bits. *)
Lemma sign_test_value (uval : Z) :
  0 <= uval < 2 ^ bits c ->
  signed c && (0 <? Z.land uval (sign_mask c))
  = signed c && (2 ^ (bits c - 1) <=? uval).
Proof.
  intros Hu. pose proof W as [_ Wp _ _ _ Wsm _ _].
  destruct (signed c); [|reflexivity]. simpl. rewrite Wsm.
  rewrite land_sign by lia.
  pose proof (pow2_pos (bits c - 1) ltac:(lia)) as Hpos.
  destruct (Z.leb_spec (2 ^ (bits c - 1)) uval); [apply Z.ltb_lt; lia|reflexivity].
Qed.

(** The integer [fix2real] reads in a word, before the binary point is
    placed. *)
Lemma fields_signed_value (uval : Z) :
  0 <= uval < 2 ^ bits c ->
  signed_value (bits c) (signed c) uval
  = ((if signed c && (2 ^ (bits c - 1) <=? uval) then int_min c else 0)
     + Z.shiftr (Z.land uval (int_mask c)) (bin_point c)) * 2 ^ bin_point c
    + Z.land uval (dec_mask c).
Proof.
  intros Hu. pose proof W as [_ Wp _ _ _ Wsm Wmin _].
  pose proof (fields_sum c W uval Hu) as Hsum.
  destruct (int_field c W uval) as [_ HM]. cbv zeta in HM.
  assert (Hp : 2 ^ bits c = 2 * 2 ^ (bits c - 1)).
  { replace (bits c) with (Z.succ (bits c - 1)) at 1 by lia.
    apply Z.pow_succ_r. lia. }
  assert (Hq : 2 ^ (bits c - 1) = 2 ^ (bits c - 1 - bin_point c) * 2 ^ bin_point c).
  { rewrite <- Z.pow_add_r by lia. f_equal. lia. }
  unfold signed_value. rewrite Wsm in Hsum. rewrite Wmin.
  destruct (signed c); simpl.
  - rewrite land_sign in Hsum by lia.
    destruct (Z.leb_spec (2 ^ (bits c - 1)) uval); lia.
  - rewrite Z.land_0_r in Hsum. lia.
Qed.

Lemma decode_value (uval : Z) :
  0 <= uval < 2 ^ bits c ->
  ~ scaling c == 0 ->
  returns (fix2real uval c)
    (inject_Z (signed_value (bits c) (signed c) uval)
     / inject_Z (2 ^ bin_point c) / scaling c).
Proof.
  intros Hu Hnz. pose proof W as [_ Wp Wst _ _ _ _ _].
  pose proof (inject_Z_pow2_pos (bin_point c) ltac:(lia)) as Hpos.
  rewrite (fields_signed_value uval Hu).
  unfold fix2real. rewrite (sign_test_value uval Hu).
  rewrite (truediv_nonzero _ _ Hnz). simpl. rewrite Wst.
  destruct (signed c && (2 ^ (bits c - 1) <=? uval));
    rewrite !inject_Z_plus, !inject_Z_mult; try rewrite !inject_Z_plus;
    field; split; lra.
Qed.

(** The same before the division by the scaling, which is Python's. *)
Lemma decode_res (uval : Z) :
  0 <= uval < 2 ^ bits c ->
  exists v,
    v == inject_Z (signed_value (bits c) (signed c) uval)
         / inject_Z (2 ^ bin_point c)
    /\ fix2real uval c = truediv v (scaling c).
Proof.
  intros Hu. pose proof W as [_ Wp Wst _ _ _ _ _].
  pose proof (inject_Z_pow2_pos (bin_point c) ltac:(lia)) as Hpos.
  rewrite (fields_signed_value uval Hu).
  unfold fix2real. rewrite (sign_test_value uval Hu).
  eexists. split; [|reflexivity]. rewrite Wst.
  destruct (signed c && (2 ^ (bits c - 1) <=? uval));
    rewrite !inject_Z_plus, !inject_Z_mult; try rewrite !inject_Z_plus;
    field; lra.
Qed.

Lemma signed_value_bounds (uval : Z) :
  0 <= uval < 2 ^ bits c ->
  int_min c * 2 ^ bin_point c <= signed_value (bits c) (signed c) uval
  < 2 ^ magnitude_top c.
Proof.
  intros Hu. pose proof W as [_ Wp _ _ _ _ Wmin _].
  assert (Hp : 2 ^ bits c = 2 * 2 ^ (bits c - 1)).
  { replace (bits c) with (Z.succ (bits c - 1)) at 1 by lia.
    apply Z.pow_succ_r. lia. }
  assert (Hq : 2 ^ (bits c - 1) = 2 ^ (bits c - 1 - bin_point c) * 2 ^ bin_point c).
  { rewrite <- Z.pow_add_r by lia. f_equal. lia. }
  unfold signed_value, magnitude_top. rewrite Wmin.
  destruct (signed c); simpl.
  - destruct (Z.leb_spec (2 ^ (bits c - 1)) uval); lia.
  - lia.
Qed.

Lemma signed_value_inj (u v : Z) :
  0 <= u < 2 ^ bits c -> 0 <= v < 2 ^ bits c ->
  signed_value (bits c) (signed c) u = signed_value (bits c) (signed c) v ->
  u = v.
Proof.
  intros Hu Hv. unfold signed_value.
  pose proof W as [_ Wp _ _ _ _ _ _].
  assert (Hp : 2 ^ bits c = 2 * 2 ^ (bits c - 1)).
  { replace (bits c) with (Z.succ (bits c - 1)) at 1 by lia.
    apply Z.pow_succ_r. lia. }
  destruct (signed c); simpl; [|lia].
  destruct (Z.leb_spec (2 ^ (bits c - 1)) u), (Z.leb_spec (2 ^ (bits c - 1)) v); lia.
Qed.

End Values.

(** C9.  The scaling acts on one direction only.  [real2fix] gives the same
    outcome, value or exception, on two structures that differ in their
    scaling alone, as any two built by [get_conv] from the same width, binary
    point and signedness are.  [fix2real] divides by it: a word of [bits]
    bits decodes to its (two's complement) integer over [2^bin_point],
    divided by the scaling with Python's division; so what it returns under
    a scaling [s] is what it returns under scaling 1 divided by [s], and for
    a word other than 0 and a scaling other than 1 the two differ. *)
Theorem scaling_asymmetry :
  (forall c1 c2 real,
      eq_but_scaling c1 c2 -> real2fix real c1 = real2fix real c2)
  /\ (forall bits bin_point signed s1 s2 c1 c2 real,
        get_conv bits bin_point signed s1 = Ok c1 ->
        get_conv bits bin_point signed s2 = Ok c2 ->
        0 <= bin_point < bits ->
        real2fix real c1 = real2fix real c2)
  /\ (forall bits bin_point signed s c uval,
        get_conv bits bin_point signed s = Ok c ->
        0 <= bin_point < bits ->
        0 <= uval < 2 ^ bits ->
        exists v,
          v == inject_Z (signed_value bits signed uval)
               / inject_Z (2 ^ bin_point)
          /\ fix2real uval c = truediv v s)
  /\ (forall bits bin_point signed s c1 c uval x y,
        get_conv bits bin_point signed 1 = Ok c1 ->
        get_conv bits bin_point signed s = Ok c ->
        0 <= bin_point < bits ->
        0 < uval < 2 ^ bits ->
        ~ s == 1 ->
        fix2real uval c1 = Ok x ->
        fix2real uval c = Ok y ->
        y == x / s /\ ~ y == x).
Proof.
  assert (A : forall c1 c2 real,
             eq_but_scaling c1 c2 -> real2fix real c1 = real2fix real c2).
  { intros c1 c2 real (E1 & E2 & E3 & E4 & E5 & E6 & E7 & E8 & E9 & E10).
    unfold real2fix. rewrite E2, E3, E4, E5, E7, E8, E9. reflexivity. }
  assert (D : forall bits bin_point signed s c uval,
             get_conv bits bin_point signed s = Ok c ->
             0 <= bin_point < bits ->
             0 <= uval < 2 ^ bits ->
             exists v,
               v == inject_Z (signed_value bits signed uval)
                    / inject_Z (2 ^ bin_point)
               /\ fix2real uval c = truediv v s).
  { intros bits bin_point signed s c uval Hc Hp Hu.
    destruct (get_conv_wf _ _ _ _ _ Hc Hp) as (W & Hb & Hbp & Hsg & Hsc).
    rewrite <- Hb, <- Hbp, <- Hsg, <- Hsc in *.
    apply decode_res; assumption. }
  split; [exact A|]. split; [|split; [exact D|]].
  - intros bits bin_point signed s1 s2 c1 c2 real H1 H2 _.
    apply A. eapply get_conv_eq_but_scaling; eassumption.
  - intros bits bin_point signed s c1 c uval x y H1 H Hp Hu Hs Hx Hy.
    destruct (D _ _ _ _ _ uval H1 Hp ltac:(lia)) as (v1 & Hv1 & E1).
    destruct (D _ _ _ _ _ uval H Hp ltac:(lia)) as (v2 & Hv2 & E2).
    rewrite Hx in E1. rewrite Hy in E2.
    rewrite truediv_nonzero in E1 by discriminate. injection E1 as ->.
    unfold truediv in E2.
    destruct (Qeq_bool s 0) eqn:Es; [discriminate|]. injection E2 as ->.
    apply Qeq_bool_neq in Es.
    pose proof (inject_Z_pow2_pos bin_point ltac:(lia)) as Hpos.
    assert (Hsv : signed_value bits signed uval <> 0).
    { unfold signed_value.
      destruct (signed && (2 ^ (bits - 1) <=? uval)); lia. }
    assert (Hv : ~ v1 == 0).
    { intros Hz. apply Hsv. apply inject_Z_injective.
      change (inject_Z 0) with 0%Q.
      assert (E : (inject_Z (signed_value bits signed uval)
                   == v1 * inject_Z (2 ^ bin_point))%Q)
        by (rewrite Hv1; field; lra).
      rewrite E, Hz. ring. }
    assert (H12 : v2 == v1) by (rewrite Hv1, Hv2; reflexivity).
    split.
    + rewrite H12. field. exact Es.
    + intros Heq. apply Hs.
      assert (E' : (v2 / s * s == v2)%Q) by (field; exact Es).
      assert (E : (v1 / 1 * s == v1)%Q).
      { rewrite <- Heq, E'. exact H12. }
      assert (E0 : (v1 * (s - 1) == 0)%Q).
      { setoid_replace (v1 * (s - 1))%Q with (v1 / 1 * s - v1)%Q by field.
        rewrite E. ring. }
      apply Qmult_integral in E0. destruct E0 as [E0|E0]; [contradiction|].
      lra.
Qed.

Lemma scaling_asymmetry_witness :
  exists c1 c2 x y,
    get_conv 8 0 false 1 = Ok c1 /\ get_conv 8 0 false (4 # 1) = Ok c2
    /\ real2fix (2 # 1) c1 = real2fix (2 # 1) c2
    /\ fix2real 8 c1 = Ok x /\ fix2real 8 c2 = Ok y
    /\ y == x / (4 # 1) /\ ~ y == x.
Proof.
  destruct scaling_asymmetry as (_ & Henc & _ & Hdec).
  eexists. eexists. eexists. eexists.
  split; [reflexivity|]. split; [reflexivity|]. split.
  - apply (Henc 8 0 false 1%Q (4 # 1)%Q _ _ (2 # 1)%Q eq_refl eq_refl). lia.
  - split; [reflexivity|]. split; [reflexivity|].
    apply (Hdec 8 0 false (4 # 1)%Q _ _ 8 _ _ eq_refl eq_refl);
      [lia | lia | discriminate | reflexivity | reflexivity].
Defined.

Section EncodeValues.

Lemma Qfloor_ge (x : Q) (k : Z) : (inject_Z k <= x)%Q -> k <= Qfloor x.
Proof.
  intros H. rewrite <- (Qfloor_Z k). apply Qfloor_resp_le. exact H.
Qed.

Lemma Qfloor_lt (x : Q) (k : Z) : (x < inject_Z k)%Q -> Qfloor x < k.
Proof.
  intros H. rewrite Zlt_Qlt. eapply Qle_lt_trans; [apply Qfloor_le|exact H].
Qed.

Variable c : conv_t.
Hypothesis W : wf_conv c.

(** What [real2fix] computes from a non-negative number, after the sign has
    been dealt with: the number is cut down to the grid of the format, its
    integer part is reduced to the width of the magnitude field, and the
    rounding correction does not fire. *)
Lemma floor_core (r : Q) :
  (0 <= r)%Q ->
  let iv := Z.land (Qfloor (Qabs r)) (Z.shiftr (int_mask c) (bin_point c)) in
  let d0 := floordiv (Qabs r - inject_Z (Qfloor (Qabs r))) (dec_step c) in
  let d1 := if dec_mask c <? d0 then dec_mask c else d0 in
  Qltb (r - (inject_Z iv + inject_Z d1 * dec_step c) + dec_step c)
       (inject_Z iv + inject_Z d1 * dec_step c - r) = false
  /\ Z.land (Z.shiftl iv (bin_point c)) (int_mask c) + d1
     = Qfloor (r * inject_Z (2 ^ bin_point c)) mod 2 ^ magnitude_top c.
Proof.
  intros Hr.
  pose proof (magnitude_top_ge c W) as Htop.
  pose proof W as [_ Wp Wst Wdm _ _ _ Wim].
  pose proof (step_pos (bin_point c) ltac:(lia)) as Hstep.
  pose proof (pow2_pos (bin_point c) ltac:(lia)) as Hp2.
  pose proof (pow2_pos (magnitude_top c - bin_point c) ltac:(lia)) as Hp3.
  assert (Ha : (Qabs r == r)%Q) by (apply Qabs_pos; assumption).
  assert (Hfl : Qfloor (Qabs r) = Qfloor r) by (apply Qfloor_comp; exact Ha).
  assert (Hd0 : floordiv (Qabs r - inject_Z (Qfloor r)) (dec_step c)
                = floordiv (r - inject_Z (Qfloor r)) (dec_step c)).
  { unfold floordiv. apply Qfloor_comp. rewrite Ha. reflexivity. }
  cbv zeta. rewrite Hfl, Hd0.
  set (fl := Qfloor r).
  set (d0 := floordiv (r - inject_Z fl) (dec_step c)).
  assert (Hd0b : 0 <= d0 < 2 ^ bin_point c).
  { unfold d0, fl. rewrite Wst. apply floordiv_frac_bounds. lia. }
  assert (Hd1 : (if dec_mask c <? d0 then dec_mask c else d0) = d0).
  { destruct (Z.ltb_spec (dec_mask c) d0); lia. }
  rewrite Hd1.
  rewrite masked_int_val by (assumption || lia).
  assert (Hfl0 : 0 <= fl) by (apply Qfloor_nonneg; assumption).
  pose proof (Z.mod_pos_bound fl (2 ^ (magnitude_top c - bin_point c)) Hp3) as Hiv.
  set (iv := fl mod 2 ^ (magnitude_top c - bin_point c)) in *.
  split.
  - apply no_correction; [rewrite Wst; assumption| |fold fl; fold d0; lia].
    fold fl. unfold iv. apply Z.mod_le; lia.
  - rewrite Wim, land_pow2_diff_mul by lia.
    rewrite Z.shiftl_mul_pow2, Z.div_mul by lia.
    rewrite (Z.mod_small iv) by lia.
    rewrite (Qfloor_scale r (bin_point c)) by lia.
    rewrite <- Wst. fold fl. fold d0.
    rewrite (mod_pow2_split (fl * 2 ^ bin_point c + d0) (bin_point c)
               (magnitude_top c)) by lia.
    assert (Hdiv : (fl * 2 ^ bin_point c + d0) / 2 ^ bin_point c = fl).
    { rewrite Z.div_add_l by lia. rewrite Z.div_small by lia. lia. }
    assert (Hmod : (fl * 2 ^ bin_point c + d0) mod 2 ^ bin_point c = d0).
    { rewrite (Z.add_comm (fl * 2 ^ bin_point c)), Z.mod_add by lia.
      apply Z.mod_small. lia. }
    rewrite Hdiv, Hmod. fold iv. reflexivity.
Qed.

(** Non-negative inputs: [real2fix] floors onto the grid and wraps. *)
Lemma encode_nonneg (real : Q) :
  (0 <= real)%Q ->
  real2fix real c
  = Ok (Qfloor (real * inject_Z (2 ^ bin_point c)) mod 2 ^ magnitude_top c).
Proof.
  intros Hr. unfold real2fix.
  assert (Hneg : Qltb real 0 = false) by (apply Qltb_ge; assumption).
  rewrite Hneg, andb_false_r.
  cbv beta iota zeta delta [divmod1].
  change (0 =? 1) with false. cbv iota.
  destruct (floor_core real Hr) as [E1 E2]. cbv zeta in E1, E2.
  rewrite E1, E2. reflexivity.
Qed.

(** Negative inputs a signed format holds. *)
Lemma encode_negative (real : Q) :
  signed c = true ->
  (inject_Z (int_min c) <= real)%Q -> (real < 0)%Q ->
  real2fix real c
  = Ok (2 ^ bits c + Qfloor (real * inject_Z (2 ^ bin_point c))).
Proof.
  intros Hs Hlo Hneg.
  pose proof W as [_ Wp Wst _ _ Wsm Wmin _].
  rewrite Hs in Wsm, Wmin.
  assert (Hmt : magnitude_top c = bits c - 1)
    by (unfold magnitude_top; now rewrite Hs).
  pose proof (inject_Z_pow2_pos (bin_point c) ltac:(lia)) as Hpos.
  assert (Hp : 2 ^ bits c = 2 * 2 ^ (bits c - 1)).
  { replace (bits c) with (Z.succ (bits c - 1)) at 1 by lia.
    apply Z.pow_succ_r. lia. }
  assert (Hq : 2 ^ (bits c - 1)
               = 2 ^ (bits c - 1 - bin_point c) * 2 ^ bin_point c).
  { rewrite <- Z.pow_add_r by lia. f_equal. lia. }
  unfold real2fix. rewrite Hs.
  assert (Hn : Qltb real 0 = true) by (apply Qltb_lt; assumption).
  rewrite Hn. cbv beta iota zeta delta [divmod1 negb andb].
  change (1 =? 1) with true. cbv iota.
  assert (Hr : (0 <= real - inject_Z (int_min c))%Q) by lra.
  destruct (floor_core (real - inject_Z (int_min c)) Hr) as [E1 E2].
  cbv zeta in E1, E2. rewrite E1.
  rewrite <- Z.add_assoc, E2, Wsm, Hmt. f_equal.
  assert (E : ((real - inject_Z (int_min c)) * inject_Z (2 ^ bin_point c)
               == inject_Z (2 ^ (bits c - 1))
                  + real * inject_Z (2 ^ bin_point c))%Q).
  { rewrite Wmin, Hq, inject_Z_opp, inject_Z_mult. ring. }
  rewrite (Qfloor_comp _ _ E), Qfloor_add_Z.
  set (F := Qfloor (real * inject_Z (2 ^ bin_point c))).
  assert (HF1 : - 2 ^ (bits c - 1) <= F).
  { apply Qfloor_ge. rewrite Hq, inject_Z_opp, inject_Z_mult.
    rewrite Wmin, inject_Z_opp in Hlo.
    apply (Qmult_le_compat_r _ _ (inject_Z (2 ^ bin_point c))) in Hlo; [|lra].
    lra. }
  assert (HF2 : F < 0).
  { apply Qfloor_lt. change (inject_Z 0) with 0%Q.
    apply (Qmult_lt_compat_r _ _ (inject_Z (2 ^ bin_point c))) in Hneg; [|lra].
    lra. }
  rewrite Z.mod_small by lia. lia.
Qed.

Lemma mod_pow2_neg (F n : Z) :
  0 <= n -> - 2 ^ n <= F < 0 -> F mod 2 ^ n = 2 ^ n + F.
Proof.
  intros Hn HF.
  replace F with ((2 ^ n + F) + (-1) * 2 ^ n) at 1 by lia.
  rewrite Z.mod_add by lia. apply Z.mod_small. lia.
Qed.

(** The grid index of an input inside the range of the format. *)
Lemma grid_index_bounds (real : Q) :
  (inject_Z (int_min c) <= real)%Q ->
  (real < inject_Z (2 ^ (magnitude_top c - bin_point c)))%Q ->
  int_min c * 2 ^ bin_point c
  <= Qfloor (real * inject_Z (2 ^ bin_point c)) < 2 ^ magnitude_top c.
Proof.
  intros Hlo Hhi.
  pose proof (magnitude_top_ge c W) as Htop.
  pose proof W as [_ Wp _ _ _ _ _ _].
  pose proof (inject_Z_pow2_pos (bin_point c) ltac:(lia)) as Hpos.
  split.
  - apply Qfloor_ge. rewrite inject_Z_mult.
    apply Qmult_le_compat_r; [assumption|lra].
  - apply Qfloor_lt.
    replace (2 ^ magnitude_top c)
      with (2 ^ (magnitude_top c - bin_point c) * 2 ^ bin_point c)
      by (rewrite <- Z.pow_add_r by lia; f_equal; lia).
    rewrite inject_Z_mult. apply Qmult_lt_compat_r; assumption.
Qed.

(** Inputs inside the range of the format are floored onto the grid and
    encoded in two's complement. *)
Lemma encode_in_range (real : Q) :
  (inject_Z (int_min c) <= real)%Q ->
  (real < inject_Z (2 ^ (magnitude_top c - bin_point c)))%Q ->
  real2fix real c
  = Ok (Qfloor (real * inject_Z (2 ^ bin_point c)) mod 2 ^ bits c).
Proof.
  intros Hlo Hhi.
  pose proof (grid_index_bounds real Hlo Hhi) as HF.
  pose proof (magnitude_top_ge c W) as Htop.
  pose proof W as [_ Wp _ _ _ _ Wmin _].
  pose proof (inject_Z_pow2_pos (bin_point c) ltac:(lia)) as Hpos.
  assert (Hmono : 2 ^ magnitude_top c <= 2 ^ bits c) by (apply pow2_le; lia).
  destruct (Qlt_le_dec real 0) as [Hneg|Hpos'].
  - assert (Hs : signed c = true).
    { destruct (signed c) eqn:E; [reflexivity|]. exfalso.
      rewrite Wmin in Hlo. change (inject_Z 0) with 0%Q in Hlo. lra. }
    rewrite (encode_negative real Hs Hlo Hneg). f_equal.
    assert (HF0 : Qfloor (real * inject_Z (2 ^ bin_point c)) < 0).
    { apply Qfloor_lt. change (inject_Z 0) with 0%Q.
      apply (Qmult_lt_compat_r _ _ (inject_Z (2 ^ bin_point c))) in Hneg; [|lra].
      lra. }
    rewrite mod_pow2_neg; [reflexivity|lia|].
    split; [|assumption].
    rewrite Wmin, Hs in HF.
    assert (Hq : 2 ^ (bits c - 1)
                 = 2 ^ (bits c - 1 - bin_point c) * 2 ^ bin_point c).
    { rewrite <- Z.pow_add_r by lia. f_equal. lia. }
    pose proof (pow2_le (bits c - 1) (bits c) ltac:(lia)). lia.
  - rewrite (encode_nonneg real Hpos'). f_equal.
    assert (HF0 : 0 <= Qfloor (real * inject_Z (2 ^ bin_point c))).
    { apply Qfloor_nonneg. apply Qmult_le_0_compat; lra. }
    rewrite !Z.mod_small by lia. reflexivity.
Qed.

Lemma signed_value_mod (F : Z) :
  int_min c * 2 ^ bin_point c <= F < 2 ^ magnitude_top c ->
  signed_value (bits c) (signed c) (F mod 2 ^ bits c) = F.
Proof.
  intros HF. pose proof W as [_ Wp _ _ _ _ Wmin _].
  assert (Hp : 2 ^ bits c = 2 * 2 ^ (bits c - 1)).
  { replace (bits c) with (Z.succ (bits c - 1)) at 1 by lia.
    apply Z.pow_succ_r. lia. }
  assert (Hq : 2 ^ (bits c - 1)
               = 2 ^ (bits c - 1 - bin_point c) * 2 ^ bin_point c).
  { rewrite <- Z.pow_add_r by lia. f_equal. lia. }
  pose proof (pow2_pos (bits c - 1) ltac:(lia)) as Hpos.
  unfold signed_value, magnitude_top in *. rewrite Wmin in HF.
  destruct (signed c); simpl.
  - destruct (Z.lt_ge_cases F 0) as [Hn|Hn].
    + rewrite mod_pow2_neg by lia.
      destruct (Z.leb_spec (2 ^ (bits c - 1)) (2 ^ bits c + F)); lia.
    + rewrite Z.mod_small by lia.
      destruct (Z.leb_spec (2 ^ (bits c - 1)) F); lia.
  - apply Z.mod_small. lia.
Qed.

(** Encoding, then decoding, an input inside the range of the format. *)
Lemma encode_decode (real : Q) :
  scaling c == 1 ->
  (inject_Z (int_min c) <= real)%Q ->
  (real < inject_Z (2 ^ (magnitude_top c - bin_point c)))%Q ->
  exists v x, real2fix real c = Ok v /\ fix2real v c = Ok x
    /\ x == inject_Z (Qfloor (real * inject_Z (2 ^ bin_point c)))
            / inject_Z (2 ^ bin_point c).
Proof.
  intros Hsc Hlo Hhi.
  pose proof (grid_index_bounds real Hlo Hhi) as HF.
  pose proof W as [_ Wp _ _ _ _ _ _].
  pose proof (inject_Z_pow2_pos (bin_point c) ltac:(lia)) as Hpos.
  pose proof (pow2_pos (bits c) ltac:(lia)) as Hpb.
  set (F := Qfloor (real * inject_Z (2 ^ bin_point c))) in *.
  assert (Hnz : ~ scaling c == 0) by (rewrite Hsc; discriminate).
  pose proof (decode_value c W (F mod 2 ^ bits c)
                (Z.mod_pos_bound F (2 ^ bits c) Hpb) Hnz) as Hd.
  rewrite (signed_value_mod F HF) in Hd.
  exists (F mod 2 ^ bits c).
  destruct (fix2real (F mod 2 ^ bits c) c) as [x|e]; [|contradiction].
  exists x. split; [apply encode_in_range; assumption|].
  split; [reflexivity|]. simpl in Hd. rewrite Hd, Hsc. field. lra.
Qed.

(** A number whose absolute value is on the grid: the two fields [real2fix]
    extracts from it. *)
Lemma grid_abs (I D : Z) (r : Q) :
  0 <= I < 2 ^ (magnitude_top c - bin_point c) ->
  0 <= D < 2 ^ bin_point c ->
  (Qabs r == inject_Z I + dec_step c * inject_Z D)%Q ->
  let iv := Z.land (Qfloor (Qabs r)) (Z.shiftr (int_mask c) (bin_point c)) in
  let d0 := floordiv (Qabs r - inject_Z (Qfloor (Qabs r))) (dec_step c) in
  let d1 := if dec_mask c <? d0 then dec_mask c else d0 in
  iv = I /\ d1 = D
  /\ Z.land (Z.shiftl I (bin_point c)) (int_mask c) = I * 2 ^ bin_point c.
Proof.
  intros HI HD Ha.
  pose proof (magnitude_top_ge c W) as Htop.
  pose proof W as [_ Wp Wst Wdm _ _ _ Wim].
  pose proof (pow2_pos (bin_point c) ltac:(lia)) as Hp2.
  rewrite Wst in Ha.
  assert (Hfl : Qfloor (Qabs r) = I).
  { rewrite (Qfloor_comp _ _ Ha). apply Qfloor_grid; lia. }
  assert (Hd0 : floordiv (Qabs r - inject_Z I) (dec_step c) = D).
  { rewrite Wst. apply floordiv_grid; [lia|]. rewrite Ha. ring. }
  cbv zeta. rewrite Hfl, Hd0.
  repeat split.
  - rewrite masked_int_val by (assumption || lia). apply Z.mod_small. lia.
  - destruct (Z.ltb_spec (dec_mask c) D); lia.
  - rewrite Wim, land_pow2_diff_mul by lia.
    rewrite Z.shiftl_mul_pow2, Z.div_mul by lia.
    rewrite Z.mod_small by lia. reflexivity.
Qed.

(** Below the least value of a signed format nothing is rejected and nothing
    saturates: the distance to the least value is encoded, less one step. *)
Lemma encode_below_min (k : Z) (real : Q) :
  signed c = true ->
  1 <= k < 2 ^ (bits c - 1) ->
  (real == inject_Z (int_min c) - inject_Z k * dec_step c)%Q ->
  real2fix real c = Ok (2 ^ (bits c - 1) + (k - 1)).
Proof.
  intros Hs Hk Hreal.
  pose proof W as [_ Wp Wst _ _ Wsm Wmin _].
  rewrite Hs in Wsm, Wmin.
  assert (Hmt : magnitude_top c = bits c - 1)
    by (unfold magnitude_top; now rewrite Hs).
  pose proof (inject_Z_pow2_pos (bin_point c) ltac:(lia)) as Hpos.
  pose proof (pow2_pos (bin_point c) ltac:(lia)) as Hp2.
  pose proof (step_pos (bin_point c) ltac:(lia)) as Hstep.
  rewrite <- Wst in Hstep.
  assert (Hkq : (1 <= inject_Z k)%Q)
    by (change 1%Q with (inject_Z 1); rewrite <- Zle_Qle; lia).
  assert (Hq : 2 ^ (bits c - 1)
               = 2 ^ (bits c - 1 - bin_point c) * 2 ^ bin_point c).
  { rewrite <- Z.pow_add_r by lia. f_equal. lia. }
  assert (Hminq : (inject_Z (int_min c) <= 0)%Q).
  { change 0%Q with (inject_Z 0). rewrite <- Zle_Qle, Wmin.
    pose proof (pow2_pos (bits c - 1 - bin_point c) ltac:(lia)). lia. }
  assert (Hks : (0 < inject_Z k * dec_step c)%Q) by nra.
  assert (Hn : Qltb real 0 = true) by (apply Qltb_lt; rewrite Hreal; lra).
  unfold real2fix. rewrite Hs, Hn.
  cbv beta iota zeta delta [divmod1 negb andb].
  change (1 =? 1) with true. cbv iota.
  set (r := (real - inject_Z (int_min c))%Q).
  assert (Hr : (r == - (inject_Z k * dec_step c))%Q)
    by (unfold r; rewrite Hreal; ring).
  pose proof (Z.div_mod k (2 ^ bin_point c) ltac:(lia)) as Hdm.
  pose proof (Z.mod_pos_bound k (2 ^ bin_point c) Hp2) as HD.
  set (I := k / 2 ^ bin_point c) in *. set (D := k mod 2 ^ bin_point c) in *.
  assert (HI : 0 <= I < 2 ^ (magnitude_top c - bin_point c)).
  { rewrite Hmt. split.
    - apply Z.div_pos; lia.
    - apply Z.div_lt_upper_bound; [lia|]. rewrite Z.mul_comm, <- Hq. lia. }
  assert (Ha : (Qabs r == inject_Z I + dec_step c * inject_Z D)%Q).
  { rewrite Hr, Qabs_opp, Qabs_pos by lra.
    rewrite Hdm at 1. rewrite inject_Z_plus, inject_Z_mult, Wst. field. lra. }
  destruct (grid_abs I D r HI HD Ha) as (E1 & E2 & E3).
  cbv zeta in E1, E2. rewrite E2, E1, E3.
  assert (Hcorr : Qltb (r - (inject_Z I + inject_Z D * dec_step c) + dec_step c)
                       (inject_Z I + inject_Z D * dec_step c - r) = true).
  { apply Qltb_lt.
    assert (Hval : (inject_Z I + inject_Z D * dec_step c
                    == inject_Z k * dec_step c)%Q).
    { rewrite Hdm at 1. rewrite inject_Z_plus, inject_Z_mult, Wst. field. lra. }
    rewrite Hval, Hr. nra. }
  rewrite Hcorr, Wsm. f_equal. lia.
Qed.

End EncodeValues.

Lemma get_conv_built (bits bin_point : Z) (signed : bool) (scaling : Q)
    (c : conv_t) :
  get_conv bits bin_point signed scaling = Ok c ->
  0 <= bin_point < bits ->
  wf_conv c /\ Fixreal.bits c = bits /\ Fixreal.bin_point c = bin_point
  /\ Fixreal.signed c = signed /\ Fixreal.scaling c = scaling
  /\ int_max c = 2 ^ (magnitude_top c - Fixreal.bin_point c) - 1.
Proof.
  intros Hc Hp.
  destruct (get_conv_wf _ _ _ _ _ Hc Hp) as (W & Hb & Hbp & Hsg & Hsc).
  repeat (split; [assumption|]).
  pose proof (get_conv_Ok_supported _ _ _ _ _ Hc) as Hs.
  destruct (get_conv_supported bits bin_point signed scaling Hs)
    as (c' & Hc' & _ & _ & _ & _ & _ & _ & _ & _ & _ & _ & Hmax).
  rewrite Hc in Hc'. injection Hc' as <-.
  rewrite Hmax. unfold magnitude_top. rewrite Hb, Hbp, Hsg.
  destruct signed; rewrite sum_pow2_range by lia; f_equal; f_equal; lia.
Qed.

(** X1.  [fix2real] reads a word of [bits] bits as a two's complement
    integer when the format is signed, as an unsigned one otherwise: what it
    returns is that integer, divided by [2^bin_point], divided in turn by the
    scaling with Python's division. *)
Theorem fix2real_twos_complement (bits bin_point : Z) (signed : bool)
    (scaling : Q) (c : conv_t) (uval : Z) :
  get_conv bits bin_point signed scaling = Ok c ->
  0 <= bin_point < bits ->
  0 <= uval < 2 ^ bits ->
  exists v,
    v == inject_Z (signed_value bits signed uval) / inject_Z (2 ^ bin_point)
    /\ fix2real uval c = truediv v scaling.
Proof.
  intros Hc Hp Hu.
  destruct (get_conv_built _ _ _ _ _ Hc Hp) as (W & Hb & Hbp & Hsg & Hsc & _).
  rewrite <- Hb, <- Hbp, <- Hsg, <- Hsc in *.
  apply decode_res; assumption.
Qed.

Lemma fix2real_twos_complement_witness :
  exists c v, get_conv 16 4 true (2 # 1) = Ok c
    /\ v == -1 # 16 /\ fix2real 65535 c = Ok (v / (2 # 1))%Q.
Proof.
  eexists.
  destruct (fix2real_twos_complement 16 4 true (2 # 1) _ 65535 eq_refl
              ltac:(lia) ltac:(lia)) as (v & Hv & E).
  exists v. split; [reflexivity|]. split.
  - rewrite Hv. reflexivity.
  - rewrite E. apply truediv_nonzero. discriminate.
Defined.

(** X2.  Under scaling 1 distinct words of [bits] bits decode to distinct
    numbers. *)
Theorem fix2real_injective (bits bin_point : Z) (signed : bool)
    (scaling : Q) (c : conv_t) (u v : Z) (x y : Q) :
  get_conv bits bin_point signed scaling = Ok c ->
  0 <= bin_point < bits ->
  scaling == 1 ->
  0 <= u < 2 ^ bits -> 0 <= v < 2 ^ bits ->
  fix2real u c = Ok x -> fix2real v c = Ok y ->
  x == y -> u = v.
Proof.
  intros Hc Hp Hone Hu Hv Hx Hy Hxy.
  destruct (get_conv_built _ _ _ _ _ Hc Hp) as (W & Hb & Hbp & Hsg & Hsc & _).
  rewrite <- Hb in Hu, Hv.
  assert (Hnz : ~ Fixreal.scaling c == 0).
  { rewrite Hsc, Hone. discriminate. }
  pose proof (decode_value c W u Hu Hnz) as Du.
  pose proof (decode_value c W v Hv Hnz) as Dv.
  rewrite Hx in Du. rewrite Hy in Dv. simpl in Du, Dv.
  pose proof W as [_ Wp _ _ _ _ _ _].
  pose proof (inject_Z_pow2_pos (Fixreal.bin_point c) ltac:(lia)) as Hpos.
  apply (signed_value_inj c W u v Hu Hv).
  apply inject_Z_injective.
  rewrite Du, Dv in Hxy.
  assert (E : forall a, (a / inject_Z (2 ^ Fixreal.bin_point c)
                         / Fixreal.scaling c
                         * (Fixreal.scaling c
                            * inject_Z (2 ^ Fixreal.bin_point c)) == a)%Q).
  { intros a. field. split; [lra|exact Hnz]. }
  rewrite <- (E (inject_Z (signed_value _ _ u))).
  rewrite <- (E (inject_Z (signed_value _ _ v))).
  rewrite Hxy. reflexivity.
Qed.

Lemma fix2real_injective_witness :
  exists c x y, get_conv 8 7 true 1 = Ok c
    /\ fix2real 129 c = Ok x /\ fix2real 1 c = Ok y /\ ~ x == y.
Proof.
  eexists. eexists. eexists.
  split; [reflexivity|]. split; [reflexivity|]. split; [reflexivity|].
  intros Hxy.
  pose proof (fix2real_injective 8 7 true 1 _ 129 1 _ _ eq_refl ltac:(lia)
                ltac:(reflexivity) ltac:(lia) ltac:(lia) eq_refl eq_refl Hxy)
    as H.
  discriminate H.
Defined.

(** X3.  Under scaling 1 every word of [bits] bits decodes to a number
    between [int_min] and [int_max + dec_mask * dec_step], and both ends are
    reached: by the word [sign_mask] and by the word [int_mask + dec_mask]. *)
Theorem fix2real_value_range (bits bin_point : Z) (signed : bool)
    (scaling : Q) (c : conv_t) (uval : Z) :
  get_conv bits bin_point signed scaling = Ok c ->
  0 <= bin_point < bits ->
  scaling == 1 ->
  0 <= uval < 2 ^ bits ->
  (exists x, fix2real uval c = Ok x
     /\ (inject_Z (int_min c) <= x)%Q
     /\ (x <= inject_Z (int_max c) + inject_Z (dec_mask c) * dec_step c)%Q)
  /\ returns (fix2real (sign_mask c) c) (inject_Z (int_min c))
  /\ returns (fix2real (int_mask c + dec_mask c) c)
       (inject_Z (int_max c) + inject_Z (dec_mask c) * dec_step c).
Proof.
  intros Hc Hp Hsc Hu.
  destruct (get_conv_built _ _ _ _ _ Hc Hp) as (W & Hb & Hbp & Hsg & Hscal & Hmax).
  rewrite <- Hb in Hu. rewrite <- Hscal in Hsc.
  assert (Hnz : ~ Fixreal.scaling c == 0) by (rewrite Hsc; discriminate).
  pose proof (magnitude_top_ge c W) as Htop.
  pose proof W as [_ Wp Wst Wdm _ Wsm Wmin Wim].
  pose proof (inject_Z_pow2_pos (Fixreal.bin_point c) ltac:(lia)) as Hpos.
  pose proof (pow2_pos (Fixreal.bin_point c) ltac:(lia)) as Hp2.
  assert (Hpb : 2 ^ Fixreal.bits c = 2 * 2 ^ (Fixreal.bits c - 1)).
  { replace (Fixreal.bits c) with (Z.succ (Fixreal.bits c - 1)) at 1 by lia.
    apply Z.pow_succ_r. lia. }
  assert (Hq : 2 ^ magnitude_top c
               = 2 ^ (magnitude_top c - Fixreal.bin_point c)
                 * 2 ^ Fixreal.bin_point c).
  { rewrite <- Z.pow_add_r by lia. f_equal. lia. }
  assert (Hmono : 2 ^ magnitude_top c <= 2 ^ Fixreal.bits c)
    by (apply pow2_le; lia).
  assert (Htopval : (inject_Z (int_max c) + inject_Z (dec_mask c) * dec_step c
                     == inject_Z (2 ^ magnitude_top c - 1)
                        / inject_Z (2 ^ Fixreal.bin_point c))%Q).
  { rewrite Hmax, Wdm, Wst, Hq.
    unfold Z.sub. rewrite !inject_Z_plus, !inject_Z_mult. simpl inject_Z.
    field. lra. }
  assert (Hvalue : forall w, 0 <= w < 2 ^ Fixreal.bits c ->
            returns (fix2real w c)
              (inject_Z (signed_value (Fixreal.bits c) (Fixreal.signed c) w)
               / inject_Z (2 ^ Fixreal.bin_point c))).
  { intros w Hw. pose proof (decode_value c W w Hw Hnz) as D.
    unfold returns in *. destruct (fix2real w c); [|contradiction].
    rewrite D, Hsc. field. lra. }
  split; [|split].
  - pose proof (Hvalue uval Hu) as D.
    pose proof (signed_value_bounds c W uval Hu) as B.
    destruct (fix2real uval c) as [x|]; [|contradiction]. simpl in D.
    exists x. split; [reflexivity|]. rewrite Htopval, D. split.
    + apply Qle_shift_div_l; [assumption|].
      rewrite <- inject_Z_mult, <- Zle_Qle. lia.
    + apply Qle_shift_div_r; [assumption|].
      assert (E : (inject_Z (2 ^ magnitude_top c - 1)
                   / inject_Z (2 ^ Fixreal.bin_point c)
                   * inject_Z (2 ^ Fixreal.bin_point c)
                   == inject_Z (2 ^ magnitude_top c - 1))%Q) by (field; lra).
      rewrite E, <- Zle_Qle. lia.
  - assert (Hw : 0 <= sign_mask c < 2 ^ Fixreal.bits c).
    { rewrite Wsm. destruct (Fixreal.signed c).
      - pose proof (pow2_pos (Fixreal.bits c - 1) ltac:(lia)). lia.
      - lia. }
    pose proof (Hvalue _ Hw) as D.
    destruct (fix2real (sign_mask c) c) as [x|]; [|contradiction].
    unfold returns in *. rewrite D.
    assert (E : signed_value (Fixreal.bits c) (Fixreal.signed c) (sign_mask c)
                = int_min c * 2 ^ Fixreal.bin_point c).
    { unfold signed_value. rewrite Wsm, Wmin.
      destruct (Fixreal.signed c); cbv beta iota delta [andb]; [|reflexivity].
      rewrite Z.leb_refl.
      assert (Hq' : 2 ^ (Fixreal.bits c - 1)
                    = 2 ^ (Fixreal.bits c - 1 - Fixreal.bin_point c)
                      * 2 ^ Fixreal.bin_point c).
      { rewrite <- Z.pow_add_r by lia. f_equal. lia. }
      rewrite Hpb. rewrite Z.mul_opp_l, <- Hq'. lia. }
    rewrite E, inject_Z_mult. field. lra.
  - assert (Hsum : int_mask c + dec_mask c = 2 ^ magnitude_top c - 1)
      by (rewrite Wim, Wdm; lia).
    pose proof (pow2_pos (magnitude_top c) ltac:(lia)) as Hpt.
    assert (Hw : 0 <= int_mask c + dec_mask c < 2 ^ Fixreal.bits c) by lia.
    pose proof (Hvalue _ Hw) as D.
    destruct (fix2real (int_mask c + dec_mask c) c) as [x|]; [|contradiction].
    unfold returns in *. rewrite D, Htopval.
    assert (E : signed_value (Fixreal.bits c) (Fixreal.signed c)
                  (int_mask c + dec_mask c) = 2 ^ magnitude_top c - 1).
    { unfold signed_value. rewrite Hsum. unfold magnitude_top in *.
      destruct (Fixreal.signed c); simpl; [|reflexivity].
      destruct (Z.leb_spec (2 ^ (Fixreal.bits c - 1))
                  (2 ^ (Fixreal.bits c - 1) - 1)); [lia|reflexivity]. }
    rewrite E. reflexivity.
Qed.

Lemma fix2real_value_range_witness :
  exists c x, get_conv 8 5 true 1 = Ok c /\ fix2real 200 c = Ok x
    /\ (inject_Z (int_min c) <= x)%Q
    /\ (x <= inject_Z (int_max c) + inject_Z (dec_mask c) * dec_step c)%Q.
Proof.
  eexists.
  destruct (proj1 (fix2real_value_range 8 5 true 1 _ 200 eq_refl ltac:(lia)
                     ltac:(reflexivity) ltac:(lia))) as (x & E & H1 & H2).
  exists x. split; [reflexivity|]. repeat split; assumption.
Defined.

Lemma int_max_succ (c : conv_t) :
  int_max c = 2 ^ (magnitude_top c - bin_point c) - 1 ->
  inject_Z (int_max c + 1) = inject_Z (2 ^ (magnitude_top c - bin_point c)).
Proof. intros ->. f_equal. lia. Qed.

(** X4.  An input inside the range of the format, from [int_min] up to but
    not including [int_max + 1], is floored onto the grid and encoded in
    two's complement: [real2fix] returns [floor(real * 2^bin_point)] modulo
    [2^bits].  It truncates towards minus infinity; it does not round to the
    nearest step.  The statement is for the inputs on which the floats of
    the source are exact; the proof, on exact rationals, holds for all. *)
Theorem real2fix_floor (bits bin_point : Z) (signed : bool) (scaling : Q)
    (c : conv_t) (real : Q) :
  get_conv bits bin_point signed scaling = Ok c ->
  0 <= bin_point < bits ->
  exact_input bits real ->
  (inject_Z (int_min c) <= real)%Q ->
  (real < inject_Z (int_max c + 1))%Q ->
  real2fix real c = Ok (Qfloor (real * inject_Z (2 ^ bin_point)) mod 2 ^ bits).
Proof.
  intros Hc Hp _ Hlo Hhi.
  destruct (get_conv_built _ _ _ _ _ Hc Hp) as (W & Hb & Hbp & _ & _ & Hmax).
  rewrite (int_max_succ c Hmax) in Hhi.
  rewrite <- Hb, <- Hbp. apply encode_in_range; assumption.
Qed.

Lemma real2fix_floor_witness :
  exists c, get_conv 8 2 true 1 = Ok c
    /\ real2fix (-7 # 8) c = Ok 252 /\ real2fix (7 # 8) c = Ok 3.
Proof.
  eexists. split; [reflexivity|]. split.
  - apply (real2fix_floor 8 2 true 1 _ (-7 # 8) eq_refl); [lia| | |].
    + right. exists (-7), 3. split; [lia|reflexivity].
    + vm_compute. discriminate.
    + vm_compute. reflexivity.
  - apply (real2fix_floor 8 2 true 1 _ (7 # 8) eq_refl); [lia| | |].
    + left. vm_compute. discriminate.
    + vm_compute. discriminate.
    + vm_compute. reflexivity.
Defined.

(** X5.  A non-negative input is never rejected and never saturates: its
    integer part wraps around the magnitude field.  [real2fix] returns
    [floor(real * 2^bin_point)] modulo [2^bits] for an unsigned format and
    modulo [2^(bits-1)] for a signed one. *)
Theorem real2fix_wraps (bits bin_point : Z) (signed : bool) (scaling : Q)
    (c : conv_t) (real : Q) :
  get_conv bits bin_point signed scaling = Ok c ->
  0 <= bin_point < bits ->
  (0 <= real)%Q ->
  real2fix real c
  = Ok (Qfloor (real * inject_Z (2 ^ bin_point))
        mod 2 ^ (if signed then bits - 1 else bits)).
Proof.
  intros Hc Hp Hr.
  destruct (get_conv_built _ _ _ _ _ Hc Hp) as (W & Hb & Hbp & Hsg & _).
  rewrite (encode_nonneg c W real Hr). unfold magnitude_top.
  rewrite Hb, Hbp, Hsg. reflexivity.
Qed.

Lemma real2fix_wraps_witness :
  exists c, get_conv 8 0 false 1 = Ok c /\ real2fix (300 # 1) c = Ok 44.
Proof.
  eexists. split; [reflexivity|].
  apply (real2fix_wraps 8 0 false 1 _ (300 # 1) eq_refl); [lia|].
  vm_compute. discriminate.
Defined.

(** X6.  A negative input below [int_min] is not rejected and does not
    saturate either: [k] steps below [int_min], for [1 <= k < 2^(bits-1)], it
    is encoded as [2^(bits-1) + k - 1], the word of the number [k - 1] steps
    above [int_min]. *)
Theorem real2fix_below_min (bits bin_point : Z) (scaling : Q) (c : conv_t)
    (k : Z) (lo hi : Q) :
  get_conv bits bin_point true scaling = Ok c ->
  0 <= bin_point < bits ->
  1 <= k < 2 ^ (bits - 1) ->
  lo == inject_Z (int_min c) - inject_Z k * dec_step c ->
  hi == inject_Z (int_min c) + inject_Z (k - 1) * dec_step c ->
  real2fix lo c = Ok (2 ^ (bits - 1) + (k - 1))
  /\ real2fix hi c = Ok (2 ^ (bits - 1) + (k - 1)).
Proof.
  intros Hc Hp Hk Hlo Hhi.
  destruct (get_conv_built _ _ _ _ _ Hc Hp) as (W & Hb & Hbp & Hsg & _ & _).
  rewrite <- Hb in *. split.
  - apply (encode_below_min c W k lo Hsg Hk Hlo).
  - pose proof W as [_ Wp Wst _ _ _ Wmin _]. rewrite Hsg in Wmin.
    assert (Hmt : magnitude_top c = Fixreal.bits c - 1)
      by (unfold magnitude_top; now rewrite Hsg).
    pose proof (inject_Z_pow2_pos (Fixreal.bin_point c) ltac:(lia)) as Hpos.
    pose proof (pow2_pos (Fixreal.bits c - 1) ltac:(lia)) as Hp1.
    pose proof (pow2_pos (Fixreal.bits c - 1 - Fixreal.bin_point c)
                  ltac:(lia)) as Hp3.
    assert (Hpb : 2 ^ Fixreal.bits c = 2 * 2 ^ (Fixreal.bits c - 1)).
    { replace (Fixreal.bits c) with (Z.succ (Fixreal.bits c - 1)) at 1 by lia.
      apply Z.pow_succ_r. lia. }
    assert (Hq : 2 ^ (Fixreal.bits c - 1)
                 = 2 ^ (Fixreal.bits c - 1 - Fixreal.bin_point c)
                   * 2 ^ Fixreal.bin_point c).
    { rewrite <- Z.pow_add_r by lia. f_equal. lia. }
    assert (Hgrid : (hi * inject_Z (2 ^ Fixreal.bin_point c)
                     == inject_Z (- 2 ^ (Fixreal.bits c - 1) + (k - 1)))%Q).
    { rewrite Hhi, Wmin, Wst, Hq.
      rewrite inject_Z_plus, !inject_Z_opp, inject_Z_mult. field. lra. }
    assert (Hk1 : (0 <= inject_Z (k - 1))%Q)
      by (change 0%Q with (inject_Z 0); rewrite <- Zle_Qle; lia).
    assert (Hstep : (0 < dec_step c)%Q)
      by (rewrite Wst; apply step_pos; lia).
    assert (Hneg : (hi * inject_Z (2 ^ Fixreal.bin_point c) < 0)%Q).
    { rewrite Hgrid. change 0%Q with (inject_Z 0). rewrite <- Zlt_Qlt. lia. }
    assert (Hhi0 : (hi < 0)%Q) by nra.
    rewrite (encode_in_range c W hi).
    + rewrite (Qfloor_comp _ _ Hgrid), Qfloor_Z.
      rewrite mod_pow2_neg by lia. f_equal. lia.
    + rewrite Hhi. nra.
    + rewrite Hmt.
      assert (0 < inject_Z (2 ^ (Fixreal.bits c - 1 - Fixreal.bin_point c)))%Q
        by (apply inject_Z_pow2_pos; lia).
      lra.
Qed.

Lemma real2fix_below_min_witness :
  exists c, get_conv 8 0 true 1 = Ok c
    /\ real2fix (-200 # 1) c = Ok 199 /\ real2fix (-57 # 1) c = Ok 199.
Proof.
  eexists. split; [reflexivity|].
  apply (real2fix_below_min 8 0 1 _ 72 (-200 # 1) (-57 # 1) eq_refl);
    [lia | lia | reflexivity | reflexivity].
Defined.

(** X7.  Encoding an input inside the range of the format and decoding the
    word again, under scaling 1, loses less than one step, downwards: the
    number that comes back is at most the input and more than the input less
    [dec_step].  The statement is for the inputs on which the floats of the
    source are exact. *)
Theorem encode_decode_truncates (bits bin_point : Z) (signed : bool)
    (scaling : Q) (c : conv_t) (real : Q) :
  get_conv bits bin_point signed scaling = Ok c ->
  0 <= bin_point < bits ->
  scaling == 1 ->
  exact_input bits real ->
  (inject_Z (int_min c) <= real)%Q ->
  (real < inject_Z (int_max c + 1))%Q ->
  exists v x, real2fix real c = Ok v /\ fix2real v c = Ok x
    /\ (x <= real)%Q /\ (real < x + dec_step c)%Q.
Proof.
  intros Hc Hp Hsc _ Hlo Hhi.
  destruct (get_conv_built _ _ _ _ _ Hc Hp) as (W & _ & _ & _ & Hscal & Hmax).
  rewrite (int_max_succ c Hmax) in Hhi. rewrite <- Hscal in Hsc.
  destruct (encode_decode c W real Hsc Hlo Hhi) as (v & x & Hv & Hx & E).
  exists v, x. split; [assumption|]. split; [assumption|].
  pose proof W as [_ Wp Wst _ _ _ _ _].
  pose proof (inject_Z_pow2_pos (Fixreal.bin_point c) ltac:(lia)) as Hpos.
  pose proof (Qfloor_le (real * inject_Z (2 ^ Fixreal.bin_point c))) as F1.
  pose proof (Qlt_floor (real * inject_Z (2 ^ Fixreal.bin_point c))) as F2.
  rewrite inject_Z_plus in F2. change (inject_Z 1) with 1%Q in F2.
  set (F := inject_Z (Qfloor (real * inject_Z (2 ^ Fixreal.bin_point c)))) in *.
  rewrite E, Wst. split.
  - apply Qle_shift_div_r; assumption.
  - assert (E2 : (F / inject_Z (2 ^ Fixreal.bin_point c)
                  + 1 / inject_Z (2 ^ Fixreal.bin_point c)
                  == (F + 1) / inject_Z (2 ^ Fixreal.bin_point c))%Q)
      by (field; lra).
    rewrite E2. apply Qlt_shift_div_l; assumption.
Qed.

Lemma encode_decode_truncates_witness :
  exists c v x, get_conv 8 2 true 1 = Ok c
    /\ real2fix (-7 # 8) c = Ok v /\ fix2real v c = Ok x
    /\ (x <= -7 # 8)%Q /\ (-7 # 8 < x + dec_step c)%Q.
Proof.
  eexists.
  destruct (encode_decode_truncates 8 2 true 1 _ (-7 # 8) eq_refl)
    as (v & x & H); [lia | reflexivity | | | | ];
    [right; exists (-7), 3; split; [lia|reflexivity]
    | vm_compute; discriminate | vm_compute; reflexivity |].
  exists v, x. split; [reflexivity|]. exact H.
Defined.

(** X8.  On the grid of the format the other round trip is exact under
    scaling 1: for an integer [k] in the range of the format, [real2fix]
    maps [k / 2^bin_point] to the word [k mod 2^bits], and [fix2real] maps
    that word back to [k / 2^bin_point]. *)
Theorem encode_decode_grid (bits bin_point : Z) (signed : bool)
    (scaling : Q) (c : conv_t) (k : Z) (real : Q) :
  get_conv bits bin_point signed scaling = Ok c ->
  0 <= bin_point < bits ->
  scaling == 1 ->
  (if signed then - 2 ^ (bits - 1) <= k < 2 ^ (bits - 1)
   else 0 <= k < 2 ^ bits) ->
  real == inject_Z k / inject_Z (2 ^ bin_point) ->
  real2fix real c = Ok (k mod 2 ^ bits)
  /\ returns (fix2real (k mod 2 ^ bits) c) real.
Proof.
  intros Hc Hp Hsc Hk Hreal.
  destruct (get_conv_built _ _ _ _ _ Hc Hp)
    as (W & Hb & Hbp & Hsg & Hscal & Hmax).
  rewrite <- Hb, <- Hbp, <- Hsg, <- Hscal in *.
  pose proof (magnitude_top_ge c W) as Htop.
  pose proof W as [_ Wp Wst _ _ _ Wmin _].
  pose proof (inject_Z_pow2_pos (Fixreal.bin_point c) ltac:(lia)) as Hpos.
  pose proof (pow2_pos (Fixreal.bits c) ltac:(lia)) as Hpb.
  assert (Hq : 2 ^ magnitude_top c
               = 2 ^ (magnitude_top c - Fixreal.bin_point c)
                 * 2 ^ Fixreal.bin_point c).
  { rewrite <- Z.pow_add_r by lia. f_equal. lia. }
  assert (HF : int_min c * 2 ^ Fixreal.bin_point c <= k < 2 ^ magnitude_top c).
  { rewrite Wmin. unfold magnitude_top in *.
    destruct (Fixreal.signed c); [|lia].
    rewrite Z.mul_opp_l, <- Hq. lia. }
  assert (Hgrid : (real * inject_Z (2 ^ Fixreal.bin_point c) == inject_Z k)%Q).
  { rewrite Hreal. field. lra. }
  assert (Hlo : (inject_Z (int_min c) <= real)%Q).
  { rewrite Hreal. apply Qle_shift_div_l; [assumption|].
    rewrite <- inject_Z_mult, <- Zle_Qle. lia. }
  assert (Hhi : (real < inject_Z (2 ^ (magnitude_top c - Fixreal.bin_point c)))%Q).
  { rewrite Hreal. apply Qlt_shift_div_r; [assumption|].
    rewrite <- inject_Z_mult, <- Zlt_Qlt. lia. }
  split.
  - rewrite (encode_in_range c W real Hlo Hhi).
    rewrite (Qfloor_comp _ _ Hgrid), Qfloor_Z. reflexivity.
  - assert (Hnz : ~ Fixreal.scaling c == 0) by (rewrite Hsc; discriminate).
    pose proof (decode_value c W (k mod 2 ^ Fixreal.bits c)
                  (Z.mod_pos_bound k _ Hpb) Hnz) as D.
    rewrite (signed_value_mod c W k HF) in D.
    unfold returns in *.
    destruct (fix2real (k mod 2 ^ Fixreal.bits c) c); [|contradiction].
    rewrite D, Hsc, Hreal. field. lra.
Qed.

Lemma encode_decode_grid_witness :
  exists c, get_conv 8 7 true 1 = Ok c
    /\ real2fix (-127 # 128) c = Ok 129
    /\ returns (fix2real 129 c) (-127 # 128).
Proof.
  eexists. split; [reflexivity|].
  apply (encode_decode_grid 8 7 true 1 _ (-127) (-127 # 128) eq_refl);
    [lia | reflexivity | simpl; lia | reflexivity].
Defined.

(** X9.  The three masks of a structure split the word: [sign_mask],
    [int_mask] and [dec_mask] are pairwise disjoint and add up to
    [2^bits - 1]; the integer mask moved down to the binary point is
    [int_max], the least integer part is [-(int_max + 1)] for a signed format,
    and [dec_mask + 1] steps make one unit. *)
Theorem get_conv_masks_partition (bits bin_point : Z) (signed : bool)
    (scaling : Q) (c : conv_t) :
  get_conv bits bin_point signed scaling = Ok c ->
  0 <= bin_point < bits ->
  Z.land (sign_mask c) (int_mask c) = 0
  /\ Z.land (sign_mask c) (dec_mask c) = 0
  /\ Z.land (int_mask c) (dec_mask c) = 0
  /\ sign_mask c + int_mask c + dec_mask c = 2 ^ bits - 1
  /\ Z.shiftr (int_mask c) bin_point = int_max c
  /\ int_min c = (if signed then - (int_max c + 1) else 0)
  /\ dec_step c * inject_Z (dec_mask c + 1) == 1.
Proof.
  intros Hc Hp.
  destruct (get_conv_built _ _ _ _ _ Hc Hp)
    as (W & Hb & Hbp & Hsg & _ & Hmax).
  pose proof (magnitude_top_ge c W) as Htop.
  pose proof W as [_ Wp Wst Wdm _ Wsm Wmin Wim].
  pose proof (pow2_pos (Fixreal.bin_point c) ltac:(lia)) as Hp2.
  pose proof (inject_Z_pow2_pos (Fixreal.bin_point c) ltac:(lia)) as Hpos.
  pose proof (pow2_le (Fixreal.bin_point c) (magnitude_top c) ltac:(lia)) as Hle.
  assert (Hpb : 2 ^ Fixreal.bits c = 2 * 2 ^ (Fixreal.bits c - 1)).
  { replace (Fixreal.bits c) with (Z.succ (Fixreal.bits c - 1)) at 1 by lia.
    apply Z.pow_succ_r. lia. }
  rewrite <- Hb, <- Hbp, <- Hsg.
  assert (Hdec : dec_mask c = 2 ^ Fixreal.bin_point c - 2 ^ 0)
    by (rewrite Wdm; reflexivity).
  assert (Hsign : sign_mask c = if Fixreal.signed c
                               then 2 ^ Fixreal.bits c - 2 ^ (Fixreal.bits c - 1)
                               else 0).
  { rewrite Wsm. destruct (Fixreal.signed c); lia. }
  repeat split.
  - rewrite Z.land_comm, Hsign. destruct (Fixreal.signed c) eqn:Hs.
    + rewrite land_pow2_diff by lia. rewrite Wim. unfold magnitude_top.
      rewrite Hs. unfold magnitude_top in Hle. rewrite Hs in Hle.
      rewrite !Z.mod_small by lia. lia.
    + apply Z.land_0_r.
  - rewrite Z.land_comm, Hsign. destruct (Fixreal.signed c) eqn:Hs.
    + rewrite land_pow2_diff by lia. rewrite Wdm.
      pose proof (pow2_le (Fixreal.bin_point c) (Fixreal.bits c - 1)
                    ltac:(lia)).
      rewrite !Z.mod_small by lia. lia.
    + apply Z.land_0_r.
  - rewrite Z.land_comm, Wim, land_pow2_diff by lia. rewrite Wdm.
    rewrite !Z.mod_small by lia. lia.
  - rewrite Wsm, Wim, Wdm. unfold magnitude_top.
    destruct (Fixreal.signed c); lia.
  - rewrite Wim, Hmax. apply shiftr_pow2_diff. lia.
  - rewrite Wmin, Hmax. unfold magnitude_top.
    destruct (Fixreal.signed c); [|reflexivity]. f_equal. lia.
  - rewrite Wst, Wdm. replace (2 ^ Fixreal.bin_point c - 1 + 1)
      with (2 ^ Fixreal.bin_point c) by lia. field. lra.
Qed.

Lemma get_conv_masks_partition_witness :
  exists c, get_conv 16 10 true 1 = Ok c
    /\ sign_mask c + int_mask c + dec_mask c = 2 ^ 16 - 1
    /\ Z.shiftr (int_mask c) 10 = int_max c.
Proof.
  eexists. split; [reflexivity|].
  destruct (get_conv_masks_partition 16 10 true 1 _ eq_refl ltac:(lia))
    as (_ & _ & _ & H1 & H2 & _).
  split; assumption.
Defined.

Section BufferAlgebra.

Variable native_big_endian : bool.

Lemma mapM_app {A B : Type} (f : A -> result B) (l1 l2 : list A)
    (x1 x2 : list B) :
  mapM f l1 = Ok x1 -> mapM f l2 = Ok x2 ->
  mapM f (l1 ++ l2) = Ok (x1 ++ x2).
Proof.
  revert x1; induction l1 as [|a l1 IH]; intros x1 H1 H2; simpl in *.
  - injection H1 as <-. exact H2.
  - destruct (f a) as [b|]; [|discriminate]. simpl in *.
    destruct (mapM f l1) as [bs|]; [|discriminate]. simpl in *.
    injection H1 as <-. rewrite (IH bs eq_refl H2). reflexivity.
Qed.

Lemma items_app (n1 n2 k : nat) (b1 b2 : list byte) :
  List.length b1 = (n1 * k)%nat ->
  items (n1 + n2) k (b1 ++ b2) = items n1 k b1 ++ items n2 k b2.
Proof.
  revert b1; induction n1 as [|n1 IH]; intros b1 Hlen; simpl in *.
  - apply length_zero_iff_nil in Hlen. subst b1. reflexivity.
  - rewrite firstn_app, skipn_app.
    replace (k - List.length b1)%nat with O by lia. simpl.
    rewrite app_nil_r. f_equal.
    apply IH. rewrite length_skipn. lia.
Qed.

(** A buffer [stream2real] decodes is made of whole items. *)
Lemma stream2real_Ok_whole (c : conv_t) (e : endianness) (buf : list byte)
    (xs : list Q) :
  bits c / 8 = Z.of_nat (code_size (fmt c)) ->
  stream2real native_big_endian buf c e = Ok xs ->
  (List.length buf mod code_size (fmt c) = 0)%nat
  /\ mapM (fun d => fix2real d c)
       (map (uint_of_bytes native_big_endian e)
            (items (List.length buf / code_size (fmt c))
                   (code_size (fmt c)) buf)) = Ok xs.
Proof.
  intros Hk H. rewrite (stream2real_unfold native_big_endian c e buf Hk) in H.
  cbv zeta in H.
  destruct (Nat.eqb_spec (List.length buf mod code_size (fmt c)) 0) as [Hm|Hm];
    [|discriminate].
  split; assumption.
Qed.

Lemma stream2real_app_items (c : conv_t) (e : endianness) (b1 b2 : list byte)
    (xs1 xs2 : list Q) :
  bits c / 8 = Z.of_nat (code_size (fmt c)) ->
  stream2real native_big_endian b1 c e = Ok xs1 ->
  stream2real native_big_endian b2 c e = Ok xs2 ->
  stream2real native_big_endian (b1 ++ b2) c e = Ok (xs1 ++ xs2).
Proof.
  intros Hk H1 H2.
  destruct (stream2real_Ok_whole c e b1 xs1 Hk H1) as [M1 E1].
  destruct (stream2real_Ok_whole c e b2 xs2 Hk H2) as [M2 E2].
  pose proof (code_size_pos (fmt c)) as Hpos.
  set (k := code_size (fmt c)) in *.
  pose proof (Nat.div_mod_eq (List.length b1) k) as D1.
  pose proof (Nat.div_mod_eq (List.length b2) k) as D2.
  set (n1 := (List.length b1 / k)%nat) in *.
  set (n2 := (List.length b2 / k)%nat) in *.
  assert (L1 : List.length b1 = (n1 * k)%nat) by lia.
  assert (L2 : List.length b2 = (n2 * k)%nat) by lia.
  rewrite (stream2real_unfold native_big_endian c e (b1 ++ b2) Hk). cbv zeta.
  fold k. rewrite length_app, L1, L2.
  replace (n1 * k + n2 * k)%nat with ((n1 + n2) * k)%nat by lia.
  rewrite Nat.Div0.mod_mul, Nat.div_mul by lia.
  change (Nat.eqb 0 0) with true. cbv iota.
  rewrite (items_app n1 n2 k b1 b2 L1), map_app.
  apply mapM_app; assumption.
Qed.

Lemma stream2real_nil (c : conv_t) (e : endianness) :
  bits c / 8 = Z.of_nat (code_size (fmt c)) ->
  stream2real native_big_endian [] c e = Ok [].
Proof.
  intros Hk. pose proof (code_size_pos (fmt c)) as Hpos.
  rewrite (stream2real_unfold native_big_endian c e [] Hk). cbv zeta.
  simpl List.length. rewrite Nat.Div0.mod_0_l, Nat.Div0.div_0_l. reflexivity.
Qed.

Lemma mapM_raise_first {A B : Type} (f : A -> result B) (l : list A) (e : exn) :
  l <> [] -> (forall a, f a = Raise e) -> mapM f l = Raise e.
Proof.
  intros Hne H. destruct l as [|a l]; [contradiction|]. simpl.
  rewrite H. reflexivity.
Qed.

End BufferAlgebra.

(** X10.  [stream2real] respects concatenation: when two buffers decode,
    their concatenation decodes to the two lists one after the other; and the
    empty buffer decodes to the empty list, whereas [bin2real] refuses it. *)
Theorem stream2real_app (native_big_endian : bool) (bits bin_point : Z)
    (signed : bool) (scaling : Q) (c : conv_t) (e : endianness) :
  get_conv bits bin_point signed scaling = Ok c ->
  0 <= bin_point < bits ->
  stream2real native_big_endian [] c e = Ok []
  /\ bin2real native_big_endian [] c e = Raise StructError
  /\ forall b1 b2 xs1 xs2,
       stream2real native_big_endian b1 c e = Ok xs1 ->
       stream2real native_big_endian b2 c e = Ok xs2 ->
       stream2real native_big_endian (b1 ++ b2) c e = Ok (xs1 ++ xs2).
Proof.
  intros Hc _.
  destruct (get_conv_item_size _ _ _ _ _ Hc) as (Hb & _ & Hk).
  rewrite <- Hb in Hk.
  split; [apply stream2real_nil; exact Hk|]. split.
  - apply bin2real_bad_length. pose proof (code_size_pos (fmt c)).
    simpl List.length. lia.
  - intros b1 b2 xs1 xs2. apply stream2real_app_items. exact Hk.
Qed.

Lemma stream2real_app_witness :
  exists c xs1 xs2, get_conv 16 0 false 1 = Ok c
    /\ stream2real false [x01; x02]%byte c Big = Ok xs1
    /\ stream2real false [x03; x04]%byte c Big = Ok xs2
    /\ stream2real false [x01; x02; x03; x04]%byte c Big = Ok (xs1 ++ xs2).
Proof.
  eexists. eexists. eexists.
  split; [reflexivity|]. split; [reflexivity|]. split; [reflexivity|].
  destruct (stream2real_app false 16 0 false 1 _ Big eq_refl ltac:(lia))
    as (_ & _ & H).
  exact (H [x01; x02]%byte [x03; x04]%byte _ _ eq_refl eq_refl).
Defined.

(** X11.  [get_conv] does not check the scaling.  With a scaling of zero the
    structure is built, and then every decoding raises [ZeroDivisionError]:
    [fix2real] on every word, [bin2real] on every buffer of the right size,
    [stream2real] on every buffer of whole items that is not empty. *)
Theorem zero_scaling_raises (native_big_endian : bool) (bits bin_point : Z)
    (signed : bool) (scaling : Q) (c : conv_t) (e : endianness) :
  get_conv bits bin_point signed scaling = Ok c ->
  0 <= bin_point < bits ->
  scaling == 0 ->
  (forall uval, fix2real uval c = Raise ZeroDivisionError)
  /\ (forall buf, Z.of_nat (List.length buf) = bits / 8 ->
        bin2real native_big_endian buf c e = Raise ZeroDivisionError)
  /\ (forall buf, buf <> [] ->
        Z.of_nat (List.length buf) mod (bits / 8) = 0 ->
        stream2real native_big_endian buf c e = Raise ZeroDivisionError).
Proof.
  intros Hc _ Hz.
  destruct (get_conv_item_size _ _ _ _ _ Hc) as (Hb & Hsc & Hk).
  rewrite <- Hsc in Hz.
  assert (Hfix : forall uval, fix2real uval c = Raise ZeroDivisionError).
  { intros uval. unfold fix2real. apply truediv_zero. exact Hz. }
  pose proof (code_size_pos (fmt c)) as Hpos.
  split; [exact Hfix|]. split.
  - intros buf Hlen. rewrite Hk in Hlen. apply Nat2Z.inj in Hlen.
    rewrite (bin2real_chunk native_big_endian c e buf Hlen). apply Hfix.
  - intros buf Hne Hm. rewrite Hk in Hm. rewrite <- Hb in Hk.
    rewrite (stream2real_unfold native_big_endian c e buf Hk). cbv zeta.
    rewrite <- Nat2Z.inj_mod in Hm.
    set (k := code_size (fmt c)) in *.
    destruct (Nat.eqb_spec (List.length buf mod k) 0) as [Hm'|Hm']; [|lia].
    apply mapM_raise_first; [|intros; apply Hfix].
    pose proof (Nat.div_mod_eq (List.length buf) k) as D.
    destruct buf as [|b buf]; [contradiction|]. simpl List.length in *.
    destruct (S (List.length buf) / k)%nat eqn:En; [lia|].
    simpl. discriminate.
Qed.

Lemma zero_scaling_raises_witness :
  exists c, get_conv 8 0 false 0 = Ok c
    /\ fix2real 0 c = Raise ZeroDivisionError
    /\ stream2real false [x01; x02]%byte c Little = Raise ZeroDivisionError.
Proof.
  eexists. split; [reflexivity|].
  destruct (zero_scaling_raises false 8 0 false 0 _ Little eq_refl ltac:(lia)
              ltac:(reflexivity)) as (H1 & _ & H3).
  split; [apply H1|]. apply H3; [discriminate|reflexivity].
Defined.

Section NameParsing.

Lemma span_digits_spec (s : string) :
  s = (fst (span_digits s) ++ snd (span_digits s))%string
  /\ all_digits (fst (span_digits s)) = true.
Proof.
  induction s as [|ch s [IH1 IH2]]; simpl; [split; reflexivity|].
  destruct (is_digit ch) eqn:E.
  - destruct (span_digits s) as [ds rest]. simpl in *.
    split; [f_equal; exact IH1 | now rewrite E, IH2].
  - split; reflexivity.
Qed.

Lemma span_digits_stop_at (ds rest : string) :
  all_digits ds = true -> stops_digits rest ->
  span_digits (ds ++ rest) = (ds, rest).
Proof.
  induction ds as [|d ds IH]; intros H Hrest; simpl in *.
  - destruct rest as [|ch rest]; [reflexivity|]. simpl in *.
    now rewrite Hrest.
  - apply andb_true_iff in H. destruct H as [Hd Hds].
    rewrite Hd, (IH Hds Hrest). reflexivity.
Qed.

Lemma match_tail_digits_rest (b q rest : string) :
  all_digits b = true -> b <> EmptyString ->
  all_digits q = true -> q <> EmptyString ->
  stops_digits rest ->
  match_tail ("_" ++ b ++ "_" ++ q ++ rest) = Some (b, q).
Proof.
  intros Hb Hbne Hq Hqne Hrest. unfold match_tail, match_digits. simpl.
  rewrite (span_digits_stop b (q ++ rest) Hb).
  destruct b as [|b0 b']; [contradiction|]. simpl.
  rewrite (span_digits_stop_at q rest Hq Hrest).
  destruct q as [|q0 q']; [contradiction|]. reflexivity.
Qed.

Lemma int_of_digits_fold_nonneg (s : string) (acc : Z) :
  all_digits s = true -> 0 <= acc ->
  0 <= fold_left (fun a ch => 10 * a + (Z.of_N (N_of_ascii ch) - 48))
         (list_ascii_of_string s) acc.
Proof.
  revert acc; induction s as [|ch s IH]; intros acc H Hacc;
    cbn [list_ascii_of_string fold_left all_digits] in *.
  - exact Hacc.
  - apply andb_true_iff in H. destruct H as [Hd Hs].
    apply IH; [exact Hs|].
    unfold is_digit in Hd. apply andb_true_iff in Hd. destruct Hd as [Hd _].
    apply N.leb_le in Hd. lia.
Qed.

Lemma int_of_digits_nonneg (s : string) :
  all_digits s = true -> 0 <= int_of_digits s.
Proof.
  intros H. unfold int_of_digits. apply int_of_digits_fold_nonneg; [exact H|lia].
Qed.

Lemma match_literal_inv (lit s m rest : string) :
  match_literal lit s = Some (m, rest) ->
  s = (m ++ rest)%string /\ lower_string m = lower_string lit.
Proof.
  revert s m; induction lit as [|a lit IH]; intros s m H; simpl in H.
  - injection H as <- <-. split; reflexivity.
  - destruct s as [|ch s]; [discriminate|].
    destruct (eqb_nocase a ch) eqn:E; [|discriminate].
    destruct (match_literal lit s) as [[m' rest']|] eqn:E'; [|discriminate].
    injection H as <- <-.
    destruct (IH s m' E') as [-> Hl]. simpl. split; [reflexivity|].
    unfold eqb_nocase in E. apply Ascii.eqb_eq in E. now rewrite Hl, E.
Qed.

Lemma match_digits_inv (s ds rest : string) :
  match_digits s = Some (ds, rest) -> all_digits ds = true.
Proof.
  unfold match_digits. intros H.
  pose proof (span_digits_spec s) as [_ Hd].
  destruct (span_digits s) as [ds' rest']. simpl in Hd.
  destruct ds' as [|d ds']; [discriminate|]. injection H as <- <-. exact Hd.
Qed.

Lemma match_tail_inv (s b q : string) :
  match_tail s = Some (b, q) -> all_digits b = true /\ all_digits q = true.
Proof.
  unfold match_tail. intros H.
  destruct (match_literal "_" s) as [[u s1]|]; [|discriminate].
  destruct (match_digits s1) as [[gb s2]|] eqn:E1; [|discriminate].
  destruct (match_literal "_" s2) as [[u' s3]|]; [|discriminate].
  destruct (match_digits s3) as [[gq s4]|] eqn:E2; [|discriminate].
  injection H as <- <-.
  split; eapply match_digits_inv; eassumption.
Qed.

Lemma match_with_inv (prefix s g b q : string) :
  match_with prefix s = Some (g, b, q) ->
  lower_string g = lower_string prefix
  /\ (exists rest, s = (g ++ rest)%string)
  /\ all_digits b = true /\ all_digits q = true.
Proof.
  unfold match_with. intros H.
  destruct (match_literal prefix s) as [[g' s1]|] eqn:E; [|discriminate].
  destruct (match_tail s1) as [[b' q']|] eqn:E'; [|discriminate].
  injection H as <- <- <-.
  destruct (match_literal_inv _ _ _ _ E) as [Hs Hl].
  destruct (match_tail_inv _ _ _ E') as [Hb Hq].
  repeat split; try assumption. exists s1. exact Hs.
Qed.

Lemma re_match_inv (name g b q : string) :
  re_match name = Some (g, b, q) ->
  (lower_string g = "fix"%string \/ lower_string g = "ufix"%string)
  /\ (exists rest, name = (g ++ rest)%string)
  /\ all_digits b = true /\ all_digits q = true.
Proof.
  unfold re_match. intros H.
  destruct (match_with "ufix" name) as [[[g' b'] q']|] eqn:E.
  - injection H as <- <- <-.
    destruct (match_with_inv _ _ _ _ _ E) as (Hl & Hr & Hb & Hq).
    repeat split; try assumption. right. exact Hl.
  - destruct (match_with_inv _ _ _ _ _ H) as (Hl & Hr & Hb & Hq).
    repeat split; try assumption. left. exact Hl.
Qed.

End NameParsing.

(** X12.  What [conv_from_name] reads in a name: a prefix [fix] or [ufix] in
    any letter case, an underscore, digits, an underscore, digits, and then
    anything that does not start with a digit, which is ignored.  The digits
    are read in base ten, leading zeros included, with no bound on either
    number; the structure is the one [get_conv] builds for them with scaling
    1, signed exactly when the prefix is [fix] in lower case. *)
Theorem conv_from_name_digits (p b q rest : string) :
  lower_string p = "fix"%string \/ lower_string p = "ufix"%string ->
  all_digits b = true -> b <> EmptyString ->
  all_digits q = true -> q <> EmptyString ->
  stops_digits rest ->
  conv_from_name (p ++ "_" ++ b ++ "_" ++ q ++ rest)
  = get_conv (int_of_digits b) (int_of_digits q) (String.eqb p "fix") 1.
Proof.
  intros Hp Hb Hbne Hq Hqne Hrest.
  unfold conv_from_name, re_match, match_with.
  destruct Hp as [Hp | Hp].
  - assert (Hu : match_literal "ufix" (p ++ "_" ++ b ++ "_" ++ q ++ rest)
                 = None).
    { destruct p as [|ch p]; [discriminate|]. injection Hp as Hc _.
      apply match_literal_first. unfold eqb_nocase. rewrite Hc. reflexivity. }
    rewrite Hu. rewrite (match_literal_cased "fix" p _ eq_refl Hp).
    rewrite (match_tail_digits_rest _ _ _ Hb Hbne Hq Hqne Hrest).
    reflexivity.
  - rewrite (match_literal_cased "ufix" p _ eq_refl Hp).
    rewrite (match_tail_digits_rest _ _ _ Hb Hbne Hq Hqne Hrest).
    reflexivity.
Qed.

Lemma conv_from_name_digits_witness :
  conv_from_name "UFix_016_010 (volts)" = get_conv 16 10 false 1.
Proof.
  apply (conv_from_name_digits "UFix" "016" "010" " (volts)");
    try reflexivity; try discriminate. right. reflexivity.
Defined.

(** X13.  What [conv_from_name] returns, when it returns: a structure with
    scaling 1, a width of 8, 16 or 32 and a binary point that is not negative
    (it is not compared with the width), signed only if the name starts with
    [fix] in lower case. *)
Theorem conv_from_name_result (name : string) (c : conv_t) :
  conv_from_name name = Ok c ->
  scaling c = 1%Q /\ supported (bits c) /\ 0 <= bin_point c
  /\ (signed c = true -> exists rest, name = ("fix" ++ rest)%string).
Proof.
  unfold conv_from_name. intros H.
  destruct (re_match name) as [[[g b] q]|] eqn:E; [|discriminate].
  destruct (re_match_inv _ _ _ _ E) as (_ & [rest Hr] & Hb & Hq).
  pose proof (int_of_digits_nonneg q Hq) as Hq0.
  pose proof (get_conv_Ok_supported _ _ _ _ _ H) as Hsup.
  destruct (get_conv_supported _ (int_of_digits q) (String.eqb g "fix") 1 Hsup)
    as (c' & Hc' & B1 & B2 & B3 & B4 & _).
  rewrite H in Hc'. injection Hc' as <-. destruct Hsup as [Hsup _].
  rewrite B1, B2, B4. repeat split; try assumption.
  intros Hs. rewrite Hs in B3. symmetry in B3.
  apply String.eqb_eq in B3. subst g. exists rest. exact Hr.
Qed.

Lemma conv_from_name_result_witness :
  exists c rest, conv_from_name "fix_32_16" = Ok c
    /\ scaling c = 1%Q /\ supported (bits c)
    /\ "fix_32_16"%string = ("fix" ++ rest)%string.
Proof.
  eexists.
  destruct (conv_from_name_result "fix_32_16" _ eq_refl)
    as (H1 & H2 & _ & H4).
  destruct (H4 eq_refl) as [rest Hr].
  exists rest. split; [reflexivity|]. repeat split; assumption.
Defined.

(** X14.  The pattern is anchored at the start of the name: an empty name,
    and a name whose first character is not an [f] or a [u] in either letter
    case, raise [ConversionError], with the name in the message. *)
Theorem conv_from_name_rejects (name : string) :
  match name with
  | EmptyString => True
  | String ch _ => lower ch <> "f"%char /\ lower ch <> "u"%char
  end ->
  conv_from_name name = Raise (ConversionError (CannotInterpretName name)).
Proof.
  intros H. unfold conv_from_name.
  assert (E : re_match name = None).
  { unfold re_match, match_with. destruct name as [|ch s]; [reflexivity|].
    destruct H as [Hf Hu].
    rewrite !match_literal_first; [reflexivity| |].
    - unfold eqb_nocase. apply Ascii.eqb_neq. intros E. apply Hf. now rewrite <- E.
    - unfold eqb_nocase. apply Ascii.eqb_neq. intros E. apply Hu. now rewrite <- E. }
  rewrite E. reflexivity.
Qed.

Lemma conv_from_name_rejects_witness :
  conv_from_name " fix_8_7"
  = Raise (ConversionError (CannotInterpretName " fix_8_7")).
Proof.
  apply (conv_from_name_rejects " fix_8_7"). split; discriminate.
Defined.
